(** * The event loop of the store (internal/store/event_loop.go)

    A shallow embedding of the per-user event loop of the bridge: the
    cursor handling of [setFirstEventID] and [processNextEvent], the
    deferred error classification, the five delta appliers and the
    patch merge of [updateMessage], followed by the properties the
    specification states about them.

    The collaborators of the loop (remote client, user, cache, store,
    event bus, file-descriptor probe) live in other packages.  They are
    represented by an environment [Env] of oracles answering each call,
    indexed by the number of calls made so far, and by a log of the
    calls the loop makes. *)

From Stdlib Require Import ZArith String List Bool.
From stdpp Require Import base gmap strings.
Import ListNotations.

Local Open Scope string_scope.
Local Open Scope Z_scope.
Local Open Scope list_scope.

(** ** Data of package pmapi used by the loop *)

(** mail.Address of net/mail. *)
Record MailAddress := { Name : string; Email : string }.

(** pmapi.Message, restricted to the fields the loop reads or writes.
    [Sender] is a pointer in the source, hence an option. *)
Record Message := {
  ID : string;
  Time : Z;
  Subject : string;
  Sender : option MailAddress;
  ToList : list MailAddress;
  CCList : list MailAddress;
  BCCList : list MailAddress;
  Unread : Z;
  Flags : Z;
  LabelIDs : list string
}.

(** pmapi.EventMessageUpdated: the sparse patch.  Pointer fields are
    options; [upd_LabelIDs] is a slice that may be nil, the two delta
    slices are only ranged over, so nil and empty coincide for them. *)
Record EventMessageUpdated := {
  upd_Time : Z;
  upd_Subject : option string;
  upd_Sender : option MailAddress;
  upd_ToList : option (list MailAddress);
  upd_CCList : option (list MailAddress);
  upd_BCCList : option (list MailAddress);
  upd_Unread : option Z;
  upd_Flags : option Z;
  upd_LabelIDs : option (list string);
  upd_LabelIDsAdded : list string;
  upd_LabelIDsRemoved : list string
}.

(** ** updateMessage *)

(** The inner search loops: [for _, l := range xs { if x == l { found = true; break } }]. *)
Definition hasLabel (x : string) (xs : list string) : bool :=
  existsb (String.eqb x) xs.

(** [for _, added := range updates.LabelIDsAdded]: append [added] unless
    the message, as updated so far, already carries it. *)
Fixpoint addLabels (labels added : list string) : list string :=
  match added with
  | [] => labels
  | a :: rest =>
      addLabels (if hasLabel a labels then labels else labels ++ [a]) rest
  end.

(** [labels := []string{}; for _, l := range message.LabelIDs]: keep [l]
    unless it occurs in [removed]; [acc] is the slice built so far. *)
Fixpoint removeLabels (acc labels removed : list string) : list string :=
  match labels with
  | [] => acc
  | l :: rest =>
      removeLabels (if hasLabel l removed then acc else acc ++ [l]) rest removed
  end.

Definition reconcileLabels (labels added removed : list string) : list string :=
  removeLabels [] (addLabels labels added) removed.

Definition updateMessage (message : Message) (updates : EventMessageUpdated) : Message :=
  {| ID := ID message;
     Time := upd_Time updates;
     Subject := match upd_Subject updates with Some s => s | None => Subject message end;
     Sender := match upd_Sender updates with Some a => Some a | None => Sender message end;
     ToList := match upd_ToList updates with Some l => l | None => ToList message end;
     CCList := match upd_CCList updates with Some l => l | None => CCList message end;
     BCCList := match upd_BCCList updates with Some l => l | None => BCCList message end;
     Unread := match upd_Unread updates with Some n => n | None => Unread message end;
     Flags := match upd_Flags updates with Some n => n | None => Flags message end;
     LabelIDs := match upd_LabelIDs updates with
                 | Some ls => ls
                 | None => reconcileLabels (LabelIDs message)
                             (upd_LabelIDsAdded updates) (upd_LabelIDsRemoved updates)
                 end |}.

(** The label rules in the words of the specification: the set
    difference keeps, in order, the ids that are not removed. *)
Definition labelDifference (labels removed : list string) : list string :=
  List.filter (fun l => negb (hasLabel l removed)) labels.

(** ** Errors *)

(** The error values the loop tells apart: the sentinels of pmapi, the
    store's [ErrNoSuchAPIID], any other error, and [errors.Wrap]. *)
Inductive error :=
| ErrAPINotReachable
| ErrUpgradeApplication
| ErrInvalidToken
| ErrUnauthorized (msg : string)
| ErrNoSuchAPIID
| ErrOther (msg : string)
| Wrap (err : error) (msg : string).

(** errors.Cause: the innermost wrapped error; nil for nil. *)
Fixpoint causeOf (err : error) : error :=
  match err with
  | Wrap inner _ => causeOf inner
  | _ => err
  end.

Definition Cause (err : option error) : option error := option_map causeOf err.

Definition isAPINotReachable (err : option error) : bool :=
  match err with Some ErrAPINotReachable => true | _ => false end.

Definition isUpgradeApplication (err : option error) : bool :=
  match err with Some ErrUpgradeApplication => true | _ => false end.

Definition isInvalidToken (err : option error) : bool :=
  match err with Some ErrInvalidToken => true | _ => false end.

(** The type assertion to a pointer to pmapi.ErrUnauthorized. *)
Definition isUnauthorized (err : option error) : bool :=
  match err with Some (ErrUnauthorized _) => true | _ => false end.

(** [err == ErrNoSuchAPIID]: a comparison of the value itself, not of its cause. *)
Definition isNoSuchAPIID (err : error) : bool :=
  match err with ErrNoSuchAPIID => true | _ => false end.

(** ** Events *)

(** pmapi.EventAction; the switches of the appliers have no default
    case, so any other value is ignored. *)
Inductive EventAction :=
| EventDelete | EventCreate | EventUpdate | EventUpdateFlags
| EventActionOther (n : Z).

Record Address := { addr_ID : string; addr_Email : string; addr_Receive : Z }.

Record EventAddress := {
  ea_ID : string;
  ea_Action : EventAction;
  ea_Address : option Address
}.

Record Label := { label_ID : string; label_Name : string; label_Color : string }.

Record EventLabel := {
  el_ID : string;
  el_Action : EventAction;
  el_Label : option Label
}.

Record EventMessage := {
  em_ID : string;
  em_Action : EventAction;
  em_Created : option Message;
  em_Updated : option EventMessageUpdated
}.

Record MessagesCount := { mc_LabelID : string; mc_Total : Z; mc_Unread : Z }.

Record Event := {
  EventID : string;
  More : Z;
  Refresh : Z;
  Addresses : list EventAddress;
  Labels : list EventLabel;
  Messages : list EventMessage;
  MessageCounts : list MessagesCount;
  Notices : list string
}.

(** Modelled from the spec: the constant pmapi.EventRefreshMail is
    declared outside this file; the specification gives the Refresh
    bitmask with MAIL = 1. *)
Definition EventRefreshMail : Z := 1.

(** The names emitted on the bridge event bus. *)
Inductive BridgeEvent :=
| InternetOffEvent | InternetOnEvent | RestartBridgeEvent
| UpgradeApplicationEvent | AddressChangedEvent | AddressChangedLogoutEvent.

(** imapBackend.StatusUpdate as built by [imapNotice]. *)
Record StatusUpdate := {
  su_Username : string;
  su_Type : string;
  su_Code : string;
  su_Info : string
}.

(** ** The world around the loop *)

(** Every call the loop makes to a collaborator, with its arguments. *)
Inductive Call :=
| CallGetEvent (since : string)
| CallAddresses
| CallUpdateUser
| CallLogout
| CallGetPrimaryAddress
| CallCloseConnection (email : string)
| CallGetStoreAddresses
| CallEmit (name : BridgeEvent) (data : string)
| CallSetEventID (userID eventID : string)
| CallIsSyncFinished
| CallTriggerSync
| CallIsSynced (counts : list MessagesCount)
| CallCreateOrUpdateAddressInfo (addrs : list Address)
| CallCreateOrDeleteAddressesEvent
| CallCreateOrUpdateMailboxEvent (label : option Label)
| CallDeleteMailboxEvent (id : string)
| CallCreateOrUpdateMessageEvent (msg : Message)
| CallGetMessageFromDB (id : string)
| CallFetchMessage (id : string)
| CallDeleteMessageEvent (id : string)
| CallIsFdCloseToULimit
| CallImapSend (update : StatusUpdate)
| CallGoPollNow
| CallEventProcessed
| CallCloseNotifyStop.

(** The answers of the collaborators.  The first argument of every
    oracle is the number of calls made before the one being answered,
    so that any sequence of answers can be described. *)
Record Env := {
  userID : string;
  on_GetEvent : nat -> string -> Event + error;
  on_Addresses : nat -> list Address;
  on_UpdateUser : nat -> option error;
  on_Logout : nat -> option error;
  on_GetPrimaryAddress : nat -> string;
  on_GetStoreAddresses : nat -> list string;
  on_setEventID : nat -> option error;
  on_isSyncFinished : nat -> bool;
  on_isSynced : nat -> bool + error;
  on_createOrUpdateAddressInfo : nat -> option error;
  on_createOrDeleteAddressesEvent : nat -> option error;
  on_createOrUpdateMailboxEvent : nat -> option error;
  on_deleteMailboxEvent : nat -> option error;
  on_createOrUpdateMessageEvent : nat -> option error;
  on_getMessageFromDB : nat -> string -> Message + error;
  on_fetchMessage : nat -> string -> Message + error;
  on_deleteMessageEvent : nat -> option error;
  on_isFdCloseToULimit : nat -> bool;
  on_imapSendTimesOut : nat -> bool
}.

(** The fields of [eventLoop] that change while it runs, the durable
    cursor cache, the IMAP update channel of the store ([None] when
    nil, otherwise the updates its receiver got), and the log of calls,
    most recent first. *)
Record State := {
  currentEventID : string;
  isRunning : bool;
  hasInternet : bool;
  cache : gmap string string;
  imapUpdates : option (list StatusUpdate);
  calls : list Call
}.

Definition setCurrentEventID (id : string) (s : State) : State :=
  {| currentEventID := id; isRunning := isRunning s; hasInternet := hasInternet s;
     cache := cache s; imapUpdates := imapUpdates s; calls := calls s |}.

Definition setIsRunning (b : bool) (s : State) : State :=
  {| currentEventID := currentEventID s; isRunning := b; hasInternet := hasInternet s;
     cache := cache s; imapUpdates := imapUpdates s; calls := calls s |}.

Definition setHasInternet (b : bool) (s : State) : State :=
  {| currentEventID := currentEventID s; isRunning := isRunning s; hasInternet := b;
     cache := cache s; imapUpdates := imapUpdates s; calls := calls s |}.

Definition setCache (c : gmap string string) (s : State) : State :=
  {| currentEventID := currentEventID s; isRunning := isRunning s; hasInternet := hasInternet s;
     cache := c; imapUpdates := imapUpdates s; calls := calls s |}.

Definition setImapUpdates (ch : option (list StatusUpdate)) (s : State) : State :=
  {| currentEventID := currentEventID s; isRunning := isRunning s; hasInternet := hasInternet s;
     cache := cache s; imapUpdates := ch; calls := calls s |}.

Definition setCalls (cs : list Call) (s : State) : State :=
  {| currentEventID := currentEventID s; isRunning := isRunning s; hasInternet := hasInternet s;
     cache := cache s; imapUpdates := imapUpdates s; calls := cs |}.

(** Modelled from the spec: the Cache type is declared outside this
    file.  Section 4.A: getEventID(userID) gives the stored id, empty if
    unknown; a write is durable on return and an error leaves the prior
    value intact. *)
Definition getEventID (c : gmap string string) (uid : string) : string :=
  match c !! uid with Some id => id | None => "" end.

(** ** A state monad with panics *)

(** A Go function either returns or panics (nil dereference). *)
Inductive Result (A : Type) :=
| Ok (a : A)
| Panicked.
Arguments Ok {A} a.
Arguments Panicked {A}.

Definition M (A : Type) : Type := State -> Result A * State.

Definition ret {A} (a : A) : M A := fun s => (Ok a, s).

Definition bind {A B} (m : M A) (k : A -> M B) : M B :=
  fun s => match m s with
           | (Ok a, s') => k a s'
           | (Panicked, s') => (Panicked, s')
           end.

Definition panic {A} : M A := fun s => (Panicked, s).

Definition modify (f : State -> State) : M unit := fun s => (Ok tt, f s).

Definition gets {A} (f : State -> A) : M A := fun s => (Ok (f s), s).

Notation "x <- m ;; k" := (bind m (fun x => k))
  (at level 100, m at next level, right associativity).
Notation "m ;;; k" := (bind m (fun _ => k))
  (at level 100, right associativity).

(** [check c wrapping msg ;; k] is
    [if err = c; err != nil { return errors.Wrap(err, msg) }; k]. *)
Notation "'check' c 'wrapping' msg ;; k" :=
  (bind c (fun err => match err with
                      | Some e => ret (Some (Wrap e msg))
                      | None => k
                      end))
  (at level 100, c at next level, msg at next level, right associativity).

(** Log a call and give the index under which the oracles answer it. *)
Definition call (c : Call) : M nat :=
  fun s => (Ok (length (calls s)), setCalls (c :: calls s) s).

Definition whenM (b : bool) (m : M unit) : M unit := if b then m else ret tt.

(** ** The event loop *)

Section EventLoop.

Variable env : Env.

(** *** Calls to the collaborators *)

Definition emit (name : BridgeEvent) (data : string) : M unit :=
  _ <- call (CallEmit name data) ;; ret tt.

Definition triggerSync : M unit :=
  _ <- call CallTriggerSync ;; ret tt.

Definition userLogout : M (option error) :=
  t <- call CallLogout ;; ret (on_Logout env t).

(** cache.setEventID: see [getEventID]. *)
Definition cacheSetEventID (uid id : string) : M (option error) :=
  t <- call (CallSetEventID uid id) ;;
  match on_setEventID env t with
  | Some err => ret (Some err)
  | None => modify (fun s => setCache (<[uid := id]> (cache s)) s) ;;; ret None
  end.

Definition apiGetEvent (since : string) : M (Event + error) :=
  t <- call (CallGetEvent since) ;; ret (on_GetEvent env t since).

Definition apiAddresses : M (list Address) :=
  t <- call CallAddresses ;; ret (on_Addresses env t).

(** Modelled from the spec: AddressList.ByID is declared in pmapi; the
    appliers "look up the old record" by id, nil when absent. *)
Definition ByID (l : list Address) (id : string) : option Address :=
  List.find (fun a => String.eqb (addr_ID a) id) l.

(** *** imap_updates.go *)

Definition imapSendUpdate (update : StatusUpdate) : M unit :=
  fun s =>
    match imapUpdates s with
    | None => (Ok tt, s)
    | Some received =>
        let t := length (calls s) in
        let s' := setCalls (CallImapSend update :: calls s) s in
        if on_imapSendTimesOut env t
        then (Ok tt, s')
        else (Ok tt, setImapUpdates (Some (received ++ [update])) s')
    end.

Definition imapNotice (address notice : string) : M unit :=
  imapSendUpdate {| su_Username := address; su_Type := "OK";
                    su_Code := "ALERT"; su_Info := notice |}.

(** *** setFirstEventID *)

Definition setFirstEventID : M (option error) :=
  r <- apiGetEvent "" ;;
  match r with
  | inr err => ret (Some err)
  | inl event =>
      modify (setCurrentEventID (EventID event)) ;;;
      id <- gets currentEventID ;;
      cacheSetEventID (userID env) id
  end.

Definition isBeforeFirstStart : M bool :=
  gets (fun s => String.eqb (currentEventID s) "").

(** *** processAddresses *)

Definition processAddressEvent (oldList : list Address) (addressEvent : EventAddress) : M unit :=
  match ea_Action addressEvent with
  | EventCreate =>
      match ea_Address addressEvent with
      | None => panic
      | Some _ =>
          t <- call CallGetPrimaryAddress ;;
          emit AddressChangedEvent (on_GetPrimaryAddress env t)
      end
  | EventUpdate =>
      match ByID oldList (ea_ID addressEvent) with
      | None => ret tt
      | Some oldAddress =>
          match ea_Address addressEvent with
          | None => panic
          | Some address =>
              whenM (negb (addr_Receive address =? addr_Receive oldAddress))
                    (emit AddressChangedLogoutEvent (addr_Email oldAddress))
          end
      end
  | EventDelete =>
      match ByID oldList (ea_ID addressEvent) with
      | None => ret tt
      | Some oldAddress =>
          _ <- call (CallCloseConnection (addr_Email oldAddress)) ;;
          emit AddressChangedLogoutEvent (addr_Email oldAddress)
      end
  | _ => ret tt
  end.

Fixpoint processAddressEvents (oldList : list Address) (addressEvents : list EventAddress) : M unit :=
  match addressEvents with
  | [] => ret tt
  | addressEvent :: rest =>
      processAddressEvent oldList addressEvent ;;;
      processAddressEvents oldList rest
  end.

Definition processAddresses (addressEvents : list EventAddress) : M (option error) :=
  oldList <- apiAddresses ;;
  t <- call CallUpdateUser ;;
  match on_UpdateUser env t with
  | Some err =>
      _ <- userLogout ;;
      ret (Some (Wrap err "failed to update user"))
  | None =>
      processAddressEvents oldList addressEvents ;;;
      addrs <- apiAddresses ;;
      check (t <- call (CallCreateOrUpdateAddressInfo addrs) ;;
             ret (on_createOrUpdateAddressInfo env t))
        wrapping "failed to update address IDs in store" ;;
      check (t <- call CallCreateOrDeleteAddressesEvent ;;
             ret (on_createOrDeleteAddressesEvent env t))
        wrapping "failed to create/delete store addresses" ;;
      ret None
  end.

(** *** processLabels *)

Fixpoint processLabels (labels : list EventLabel) : M (option error) :=
  match labels with
  | [] => ret None
  | eventLabel :: rest =>
      match el_Action eventLabel with
      | EventCreate | EventUpdate =>
          check (t <- call (CallCreateOrUpdateMailboxEvent (el_Label eventLabel)) ;;
                 ret (on_createOrUpdateMailboxEvent env t))
            wrapping "failed to create or update label" ;;
          processLabels rest
      | EventDelete =>
          check (t <- call (CallDeleteMailboxEvent (el_ID eventLabel)) ;;
                 ret (on_deleteMailboxEvent env t))
            wrapping "failed to delete label" ;;
          processLabels rest
      | _ => processLabels rest
      end
  end.

(** *** processMessages *)

Definition createOrUpdateMessageEvent (msg : Message) : M (option error) :=
  t <- call (CallCreateOrUpdateMessageEvent msg) ;;
  ret (on_createOrUpdateMessageEvent env t).

Definition getMessageFromDB (id : string) : M (Message + error) :=
  t <- call (CallGetMessageFromDB id) ;; ret (on_getMessageFromDB env t id).

Definition fetchMessage (id : string) : M (Message + error) :=
  t <- call (CallFetchMessage id) ;; ret (on_fetchMessage env t id).

Definition deleteMessageEvent (id : string) : M (option error) :=
  t <- call (CallDeleteMessageEvent id) ;; ret (on_deleteMessageEvent env t).

(** The loop over the deltas.  [err] is the named result of
    processMessages: it is assigned by the store calls, it is what the
    final [return err] gives back, and [break] and [continue] leave it
    as it is. *)
Fixpoint processMessagesFrom (err : option error) (messages : list EventMessage)
  : M (option error) :=
  match messages with
  | [] => ret err
  | message :: rest =>
      match em_Action message with
      | EventCreate =>
          match em_Created message with
          | None => processMessagesFrom err rest
          | Some created =>
              check createOrUpdateMessageEvent created
                wrapping "failed to put message into DB" ;;
              processMessagesFrom None rest
          end
      | EventUpdate | EventUpdateFlags =>
          match em_Updated message with
          | None => processMessagesFrom err rest
          | Some updates =>
              let merge (msg : Message) :=
                check createOrUpdateMessageEvent (updateMessage msg updates)
                  wrapping "failed to update message in DB" ;;
                processMessagesFrom None rest in
              let failed (e : error) : M (option error) :=
                ret (Some (Wrap e "failed to get message from DB for updating")) in
              r <- getMessageFromDB (em_ID message) ;;
              match r with
              | inl msg => merge msg
              | inr e =>
                  if isNoSuchAPIID e then
                    r' <- fetchMessage (em_ID message) ;;
                    match r' with
                    | inl msg => merge msg
                    | inr e' =>
                        if isNoSuchAPIID e'
                        then processMessagesFrom (Some e') rest
                        else failed e'
                    end
                  else failed e
              end
          end
      | EventDelete =>
          check deleteMessageEvent (em_ID message)
            wrapping "failed to delete message from DB" ;;
          processMessagesFrom None rest
      | EventActionOther _ => processMessagesFrom err rest
      end
  end.

Definition processMessages (messages : list EventMessage) : M (option error) :=
  processMessagesFrom None messages.

(** *** processMessageCounts and processNotices *)

Definition processMessageCounts (messageCounts : list MessagesCount) : M (option error) :=
  t <- call (CallIsSynced messageCounts) ;;
  match on_isSynced env t with
  | inr err => ret (Some err)
  | inl isSynced => whenM (negb isSynced) triggerSync ;;; ret None
  end.

Fixpoint imapNoticeAll (addresses : list string) (notice : string) : M unit :=
  match addresses with
  | [] => ret tt
  | address :: rest => imapNotice address notice ;;; imapNoticeAll rest notice
  end.

Fixpoint processNotices (notices : list string) : M unit :=
  match notices with
  | [] => ret tt
  | notice :: rest =>
      t <- call CallGetStoreAddresses ;;
      imapNoticeAll (on_GetStoreAddresses env t) notice ;;;
      processNotices rest
  end.

(** *** processEvent *)

(** [if len(xs) != 0 { if err = f(xs); err != nil { return wrap } }]. *)
Definition ifNonEmpty {A} (xs : list A) (f : list A -> M (option error)) : M (option error) :=
  match xs with
  | [] => ret None
  | _ => f xs
  end.

Definition processEvent (event : Event) : M (option error) :=
  if negb (Z.land (Refresh event) EventRefreshMail =? 0) then
    triggerSync ;;; ret None
  else
    check ifNonEmpty (Addresses event) processAddresses
      wrapping "failed to process address events" ;;
    check ifNonEmpty (Labels event) processLabels
      wrapping "failed to process label events" ;;
    check ifNonEmpty (Messages event) processMessages
      wrapping "failed to process message events" ;;
    check ifNonEmpty (MessageCounts event) processMessageCounts
      wrapping "failed to process message count events" ;;
    match Notices event with
    | [] => ret tt
    | notices => processNotices notices
    end ;;;
    ret None.

(** *** processNextEvent *)

(** The deferred function: it rewrites the named result [err]. *)
Definition classify (err : option error) : M (option error) :=
  err <- (if isAPINotReachable (Cause err) then
            emit InternetOffEvent "" ;;;
            modify (setHasInternet false) ;;;
            ret None
          else ret err) ;;
  err <- (match err with
          | None => ret err
          | Some _ =>
              t <- call CallIsFdCloseToULimit ;;
              if on_isFdCloseToULimit env t
              then emit RestartBridgeEvent "" ;;; ret None
              else ret err
          end) ;;
  err <- (if isUpgradeApplication (Cause err) then
            emit UpgradeApplicationEvent "" ;;; ret None
          else ret err) ;;
  let errUnauthorized := isUnauthorized (Cause err) in
  match err with
  | Some _ =>
      if negb errUnauthorized && negb (isInvalidToken (Cause err))
      then ret None
      else ret err
  | None => ret err
  end.

(** The body of processNextEvent, up to its return statements. *)
Definition processNextEventBody : M (bool * option error) :=
  since <- gets currentEventID ;;
  r <- apiGetEvent since ;;
  match r with
  | inr err => ret (false, Some (Wrap err "failed to get event"))
  | inl event =>
      online <- gets hasInternet ;;
      whenM (negb online)
            (emit InternetOnEvent "" ;;; modify (setHasInternet true)) ;;;
      err <- processEvent event ;;
      match err with
      | Some e => ret (false, Some (Wrap e "failed to process event"))
      | None =>
          current <- gets currentEventID ;;
          if negb (String.eqb current (EventID event)) then
            modify (setCurrentEventID (EventID event)) ;;;
            werr <- cacheSetEventID (userID env) (EventID event) ;;
            match werr with
            | Some e => ret (false, Some (Wrap e "failed to save event ID to cache"))
            | None => ret (More event =? 1, None)
            end
          else ret (More event =? 1, None)
      end
  end.

(** A panic can only come from processEvent, when [err] is still nil:
    the deferred function then changes nothing, and [bind] skipping it
    is the same. *)
Definition processNextEvent : M (bool * option error) :=
  r <- processNextEventBody ;;
  err <- classify (snd r) ;;
  ret (fst r, err).

(** *** start *)

(** What the select of one iteration receives. *)
Inductive Trigger := StopSignal | PollRequest | Tick.

(** Lines 150-163: the first event id and the sync check. *)
Definition startPrelude : M unit :=
  before <- isBeforeFirstStart ;;
  whenM before (_ <- setFirstEventID ;; ret tt) ;;;
  t <- call CallIsSyncFinished ;;
  whenM (negb (on_isSyncFinished env t)) triggerSync.

(** Lines 166-184: what follows processNextEvent; [true] when the loop
    goes on. *)
Definition startFinish (trigger : Trigger) (r : bool * option error) : M bool :=
  match trigger with
  | PollRequest => _ <- call CallEventProcessed ;; ret tt
  | _ => ret tt
  end ;;;
  match snd r with
  | Some _ => _ <- userLogout ;; ret false
  | None =>
      whenM (fst r) (_ <- call CallGoPollNow ;; ret tt) ;;;
      ret true
  end.

Definition iteration (trigger : Trigger) : M bool :=
  match trigger with
  | StopSignal => _ <- call CallCloseNotifyStop ;; ret false
  | _ =>
      startPrelude ;;;
      r <- processNextEvent ;;
      startFinish trigger r
  end.

(** The for loop along the given select outcomes; [true] when they are
    used up with the loop still running. *)
Fixpoint loopFor (triggers : list Trigger) : M bool :=
  match triggers with
  | [] => ret true
  | trigger :: rest =>
      continue <- iteration trigger ;;
      if continue then loopFor rest else ret false
  end.

(** start, run along [triggers]; the deferred [isRunning = false] is
    executed when the loop returns or panics. *)
Definition start (triggers : list Trigger) : M unit :=
  fun s =>
    if isRunning s then (Ok tt, s)
    else
      let s1 := setHasInternet true (setIsRunning true s) in
      let s2 := setCalls (CallGoPollNow :: calls s1) s1 in
      match loopFor triggers s2 with
      | (Ok true, s') => (Ok tt, s')
      | (Ok false, s') => (Ok tt, setIsRunning false s')
      | (Panicked, s') => (Panicked, setIsRunning false s')
      end.

(** newEventLoop: the cursor is read from the cache. *)
Definition newEventLoop (c : gmap string string)
    (imap : option (list StatusUpdate)) : State :=
  {| currentEventID := getEventID c (userID env);
     isRunning := false;
     hasInternet := false;
     cache := c;
     imapUpdates := imap;
     calls := [] |}.

End EventLoop.

(** ** The stream of applied events *)

(** The events a run takes its cursor from, in order: the head event
    that setFirstEventID obtains, and every event that processNextEvent
    fetches and processEvent applies without error. *)
Section Applied.

Variable env : Env.

Definition headEvent (s : State) : list Event :=
  if String.eqb (currentEventID s) "" then
    match on_GetEvent env (length (calls s)) "" with
    | inl event => [event]
    | inr _ => []
    end
  else [].

(** The state in which processNextEvent starts processEvent: after the
    GetEvent call and, when the loop was offline, the InternetOn
    emission. *)
Definition fetched (s : State) : State :=
  let s1 := setCalls (CallGetEvent (currentEventID s) :: calls s) s in
  if hasInternet s then s1
  else setHasInternet true (setCalls (CallEmit InternetOnEvent "" :: calls s1) s1).

Definition appliedEvent (s : State) : list Event :=
  match on_GetEvent env (length (calls s)) (currentEventID s) with
  | inr _ => []
  | inl event =>
      match fst (processEvent env event (fetched s)) with
      | Ok None => [event]
      | _ => []
      end
  end.

Definition appliedIn (trigger : Trigger) (s : State) : list Event :=
  match trigger with
  | StopSignal => []
  | _ => headEvent s ++ appliedEvent (snd (startPrelude env s))
  end.

Fixpoint appliedAlong (triggers : list Trigger) (s : State) : list Event :=
  match triggers with
  | [] => []
  | trigger :: rest =>
      appliedIn trigger s ++
      match iteration env trigger s with
      | (Ok true, s') => appliedAlong rest s'
      | _ => []
      end
  end.

Definition appliedBy (triggers : list Trigger) (s : State) : list Event :=
  if isRunning s then []
  else
    let s1 := setHasInternet true (setIsRunning true s) in
    appliedAlong triggers (setCalls (CallGoPollNow :: calls s1) s1).

(** The cursor as persisted for the user of the loop. *)
Definition persisted (s : State) : string := getEventID (cache s) (userID env).

End Applied.

(** Number of [user.Logout] calls in a log. *)
Definition isLogout (c : Call) : bool :=
  match c with CallLogout => true | _ => false end.

Definition logouts (s : State) : nat :=
  List.length (List.filter isLogout (calls s)).

Definition isGetEvent (c : Call) : bool :=
  match c with CallGetEvent _ => true | _ => false end.

(** The fatal kinds of the classifier. *)
Definition isFatal (err : error) : bool :=
  isUnauthorized (Cause (Some err)) || isInvalidToken (Cause (Some err)).

(** ** Relations and counters of the statements *)

(** A relation [R] between the state before and after holds for [m]. *)
Definition keeps (R : State -> State -> Prop) {A} (m : M A) : Prop :=
  forall s, R s (snd (m s)).

(** Neither the in-memory cursor nor the cache changes. *)
Definition sameCursor (s s' : State) : Prop :=
  currentEventID s' = currentEventID s /\ cache s' = cache s.

(** The log of calls only grows. *)
Definition extendsLog (s s' : State) : Prop :=
  exists l, calls s' = l ++ calls s.

(** The cursor moves along the ids [ids]: the in-memory cursor ends on
    the last of them, the persisted one stays or takes one of them. *)
Definition advance (env : Env) (ids : list string) (s s' : State) : Prop :=
  currentEventID s' = List.last ids (currentEventID s)
  /\ (persisted env s' = persisted env s \/ In (persisted env s') ids).

(** The state in which start enters its for loop. *)
Definition started (s : State) : State :=
  let s1 := setHasInternet true (setIsRunning true s) in
  setCalls (CallGoPollNow :: calls s1) s1.

Definition isStopSignal (trigger : Trigger) : bool :=
  match trigger with StopSignal => true | _ => false end.

Definition isGoPollNow (c : Call) : bool :=
  match c with CallGoPollNow => true | _ => false end.

(** Number of [go loop.pollNow()] statements executed. *)
Definition pollsSpawned (s : State) : nat :=
  List.length (List.filter isGoPollNow (calls s)).

(** The outcome of the cache write of processNextEvent for [event]
    fetched at [s], processEvent having ended in [s2]: [None] also when
    the ids are equal and nothing is written. *)
Definition cursorWrite (env : Env) (s : State) (event : Event) (s2 : State) : option error :=
  if String.eqb (currentEventID s) (EventID event) then None
  else on_setEventID env (length (calls s2)).

(** [event] with other message deltas. *)
Definition withMessages (messages : list EventMessage) (event : Event) : Event :=
  {| EventID := EventID event; More := More event; Refresh := Refresh event;
     Addresses := Addresses event; Labels := Labels event; Messages := messages;
     MessageCounts := MessageCounts event; Notices := Notices event |}.

(** ** Scenarios *)

Definition emptyEvent (id : string) : Event :=
  {| EventID := id; More := 0; Refresh := 0; Addresses := []; Labels := [];
     Messages := []; MessageCounts := []; Notices := [] |}.

(** An environment in which the remote answers GetEvent by [answer],
    the cache write gives [write], the descriptor probe gives [fd],
    UpdateUser gives [update]; the store knows no message and every
    other call succeeds. *)
Definition scenario (answer : string -> Event + error) (write : option error)
    (fd : bool) (update : option error) : Env :=
  {| userID := "user";
     on_GetEvent := fun _ since => answer since;
     on_Addresses := fun _ => [];
     on_UpdateUser := fun _ => update;
     on_Logout := fun _ => None;
     on_GetPrimaryAddress := fun _ => "user@pm.me";
     on_GetStoreAddresses := fun _ => ["user@pm.me"];
     on_setEventID := fun _ => write;
     on_isSyncFinished := fun _ => true;
     on_isSynced := fun _ => inl true;
     on_createOrUpdateAddressInfo := fun _ => None;
     on_createOrDeleteAddressesEvent := fun _ => None;
     on_createOrUpdateMailboxEvent := fun _ => None;
     on_deleteMailboxEvent := fun _ => None;
     on_createOrUpdateMessageEvent := fun _ => None;
     on_getMessageFromDB := fun _ _ => inr ErrNoSuchAPIID;
     on_fetchMessage := fun _ _ => inr ErrNoSuchAPIID;
     on_deleteMessageEvent := fun _ => None;
     on_isFdCloseToULimit := fun _ => fd;
     on_imapSendTimesOut := fun _ => false |}.

(** A running, online loop whose cursor [id] is also the cached one. *)
Definition loopAt (id : string) : State :=
  {| currentEventID := id; isRunning := true; hasInternet := true;
     cache := {[ "user" := id ]}; imapUpdates := None; calls := [] |}.

(** [loopAt id] after the sync check of an iteration. *)
Definition polled (id : string) : State :=
  setCalls [CallIsSyncFinished] (loopAt id).

Definition message1 : Message :=
  {| ID := "m1"; Time := 100; Subject := "hello"; Sender := None; ToList := [];
     CCList := []; BCCList := []; Unread := 1; Flags := 0; LabelIDs := ["L1"; "L2"] |}.

Definition created1 : EventMessage :=
  {| em_ID := "m1"; em_Action := EventCreate;
     em_Created := Some message1; em_Updated := None |}.

Definition nilCreate : EventMessage :=
  {| em_ID := "m2"; em_Action := EventCreate; em_Created := None; em_Updated := None |}.

Definition deleted3 : EventMessage :=
  {| em_ID := "m3"; em_Action := EventDelete; em_Created := None; em_Updated := None |}.

(** [polled id] after the event is fetched and [message1] stored. *)
Definition created (id : string) : State :=
  setCalls [CallCreateOrUpdateMessageEvent message1; CallGetEvent id; CallIsSyncFinished]
           (loopAt id).

(** A remote with the stream e0 (head), e1, e2; e1 creates [message1]. *)
Definition streamAnswer (since : string) : Event + error :=
  if String.eqb since "" then inl (emptyEvent "e0")
  else if String.eqb since "e0" then inl (withMessages [created1] (emptyEvent "e1"))
  else inl (emptyEvent "e2").

Definition envStream : Env := scenario streamAnswer None false None.

Definition envStreamWriteFails : Env :=
  scenario streamAnswer (Some (ErrOther "disk full")) false None.

Definition envTimeoutFd : Env :=
  scenario (fun _ => inr (ErrOther "timeout")) None true None.

Definition envOfflineFd : Env :=
  scenario (fun _ => inr ErrAPINotReachable) None true None.

Definition envInvalidToken : Env :=
  scenario (fun _ => inr ErrInvalidToken) None false None.

Definition envInvalidTokenFd : Env :=
  scenario (fun _ => inr ErrInvalidToken) None true None.

Definition addressCreated : Event :=
  {| EventID := "e6"; More := 0; Refresh := 0;
     Addresses := [ {| ea_ID := "a1"; ea_Action := EventCreate;
                       ea_Address := Some {| addr_ID := "a1"; addr_Email := "new@pm.me";
                                             addr_Receive := 1 |} |} ];
     Labels := []; Messages := []; MessageCounts := []; Notices := [] |}.

Definition envUnauthorizedUpdate : Env :=
  scenario (fun _ => inl addressCreated) None false (Some (ErrUnauthorized "401")).

(** An event that creates a message and announces a further event. *)
Definition moreEvent : Event :=
  {| EventID := "e2"; More := 1; Refresh := 0; Addresses := []; Labels := [];
     Messages := [created1]; MessageCounts := []; Notices := [] |}.

Definition envMore : Env := scenario (fun _ => inl moreEvent) None false None.

Definition envMoreWriteFails : Env :=
  scenario (fun _ => inl moreEvent) (Some (ErrOther "disk full")) false None.


(** A refresh event that also carries deltas (scenario S5). *)
Definition refreshEvent : Event :=
  {| EventID := "e5"; More := 0; Refresh := 1; Addresses := []; Labels := [];
     Messages := [created1]; MessageCounts := []; Notices := ["maintenance"] |}.

Definition envRefresh : Env := scenario (fun _ => inl refreshEvent) None false None.

Definition envRefreshWriteFails : Env :=
  scenario (fun _ => inl refreshEvent) (Some (ErrOther "disk full")) false None.

Definition createThenDelete : Event :=
  {| EventID := "e2"; More := 0; Refresh := 0; Addresses := []; Labels := [];
     Messages := [created1; nilCreate; deleted3];
     MessageCounts := []; Notices := [] |}.

(** An update for a message unknown to the store and to the remote
    (scenario S3). *)
Definition staleUpdate : EventMessage :=
  {| em_ID := "mX"; em_Action := EventUpdate; em_Created := None;
     em_Updated := Some {| upd_Time := 200; upd_Subject := None; upd_Sender := None;
                           upd_ToList := None; upd_CCList := None; upd_BCCList := None;
                           upd_Unread := Some 0; upd_Flags := None; upd_LabelIDs := None;
                           upd_LabelIDsAdded := []; upd_LabelIDsRemoved := [] |} |}.

Definition staleUpdateEvent : Event :=
  {| EventID := "e3"; More := 0; Refresh := 0; Addresses := []; Labels := [];
     Messages := [staleUpdate]; MessageCounts := []; Notices := [] |}.

Definition envStale : Env := scenario (fun _ => inl staleUpdateEvent) None false None.

Definition labelPatch : EventMessageUpdated :=
  {| upd_Time := 300; upd_Subject := None; upd_Sender := None; upd_ToList := None;
     upd_CCList := None; upd_BCCList := None; upd_Unread := None; upd_Flags := None;
     upd_LabelIDs := None; upd_LabelIDsAdded := ["L3"; "L1"];
     upd_LabelIDsRemoved := ["L1"] |}.

(** ** Further patches and messages *)

(** A patch that carries every optional field. *)
Definition fullPatch : EventMessageUpdated :=
  {| upd_Time := 400; upd_Subject := Some "re: hello";
     upd_Sender := Some {| Name := "Ann"; Email := "ann@pm.me" |};
     upd_ToList := Some [ {| Name := "Bob"; Email := "bob@pm.me" |} ];
     upd_CCList := Some []; upd_BCCList := Some [];
     upd_Unread := Some 0; upd_Flags := Some 1;
     upd_LabelIDs := Some ["L7"];
     upd_LabelIDsAdded := ["L8"]; upd_LabelIDsRemoved := ["L7"] |}.

(** A patch that adds a label the message has and removes one it has not. *)
Definition replayedPatch : EventMessageUpdated :=
  {| upd_Time := 500; upd_Subject := None; upd_Sender := None; upd_ToList := None;
     upd_CCList := None; upd_BCCList := None; upd_Unread := None; upd_Flags := None;
     upd_LabelIDs := None; upd_LabelIDsAdded := ["L2"; "L1"];
     upd_LabelIDsRemoved := ["L9"] |}.

(** ** Observers of the further properties *)

(** The calls the five appliers make: to the user, the client's address
    list, the store and its sync coordinator, the IMAP channel, and the
    two address emissions. *)
Definition applierCall (c : Call) : bool :=
  match c with
  | CallAddresses | CallUpdateUser | CallLogout | CallGetPrimaryAddress
  | CallCloseConnection _ | CallGetStoreAddresses
  | CallEmit AddressChangedEvent _ | CallEmit AddressChangedLogoutEvent _
  | CallTriggerSync | CallIsSynced _
  | CallCreateOrUpdateAddressInfo _ | CallCreateOrDeleteAddressesEvent
  | CallCreateOrUpdateMailboxEvent _ | CallDeleteMailboxEvent _
  | CallCreateOrUpdateMessageEvent _ | CallGetMessageFromDB _
  | CallFetchMessage _ | CallDeleteMessageEvent _
  | CallImapSend _ => true
  | _ => false
  end.

(** Only applier calls are added to the log, and the fields of the loop
    and the cache stay as they are. *)
Definition appliesOnly (s s' : State) : Prop :=
  currentEventID s' = currentEventID s
  /\ isRunning s' = isRunning s
  /\ hasInternet s' = hasInternet s
  /\ cache s' = cache s
  /\ exists l, calls s' = l ++ calls s /\ forallb applierCall l = true.

(** The connectivity emissions: [Some true] for InternetOn, [Some false]
    for InternetOff. *)
Definition connectivity (c : Call) : option bool :=
  match c with
  | CallEmit InternetOnEvent _ => Some true
  | CallEmit InternetOffEvent _ => Some false
  | _ => None
  end.

(** The most recent connectivity emission of a log. *)
Fixpoint lastConnectivity (log : list Call) : option bool :=
  match log with
  | [] => None
  | c :: rest =>
      match connectivity c with
      | Some b => Some b
      | None => lastConnectivity rest
      end
  end.

(** Every InternetOn of the log has an InternetOff as the connectivity
    emission before it. *)
Fixpoint onAfterOff (log : list Call) : bool :=
  match log with
  | [] => true
  | c :: rest =>
      match connectivity c with
      | Some true =>
          match lastConnectivity rest with
          | Some false => onAfterOff rest
          | _ => false
          end
      | _ => onAfterOff rest
      end
  end.

(** The flag [hasInternet] as the log of emissions tells it: online
    until an InternetOff is the last connectivity emission. *)
Definition onlineByLog (log : list Call) : bool :=
  match lastConnectivity log with
  | Some b => b
  | None => true
  end.

(** No connectivity emission is added and [hasInternet] stays. *)
Definition quiet (s s' : State) : Prop :=
  hasInternet s' = hasInternet s
  /\ exists l, calls s' = l ++ calls s
               /\ forallb (fun c => match connectivity c with None => true | _ => false end) l
                  = true.

(** The connectivity flag agrees with the log, and the log never has an
    InternetOn that does not answer an InternetOff. *)
Definition connected (s : State) : Prop :=
  hasInternet s = onlineByLog (calls s) /\ onAfterOff (calls s) = true.

(** A remote that is not reachable for the first calls and then serves
    the head event e0 and nothing new after it. *)
Definition envFlaky : Env :=
  {| userID := "user";
     on_GetEvent := fun t _ =>
       if Nat.ltb t 4 then inr ErrAPINotReachable else inl (emptyEvent "e0");
     on_Addresses := fun _ => []; on_UpdateUser := fun _ => None;
     on_Logout := fun _ => None; on_GetPrimaryAddress := fun _ => "user@pm.me";
     on_GetStoreAddresses := fun _ => ["user@pm.me"]; on_setEventID := fun _ => None;
     on_isSyncFinished := fun _ => true; on_isSynced := fun _ => inl true;
     on_createOrUpdateAddressInfo := fun _ => None;
     on_createOrDeleteAddressesEvent := fun _ => None;
     on_createOrUpdateMailboxEvent := fun _ => None;
     on_deleteMailboxEvent := fun _ => None;
     on_createOrUpdateMessageEvent := fun _ => None;
     on_getMessageFromDB := fun _ _ => inr ErrNoSuchAPIID;
     on_fetchMessage := fun _ _ => inr ErrNoSuchAPIID;
     on_deleteMessageEvent := fun _ => None;
     on_isFdCloseToULimit := fun _ => false;
     on_imapSendTimesOut := fun _ => false |}.

(** IsRunning (lines 68-70). *)
Definition IsRunning : M bool := gets isRunning.

(** The running flag stays as it is. *)
Definition sameRunning (s s' : State) : Prop := isRunning s' = isRunning s.

(** The cache entry of user [uid] stays as it is. *)
Definition sameEntry (uid : string) (s s' : State) : Prop :=
  cache s' !! uid = cache s !! uid.

(** The calls of the sync check of an iteration made at [s]. *)
Definition syncCalls (env : Env) (s : State) : list Call :=
  if on_isSyncFinished env (length (calls s)) then [CallIsSyncFinished]
  else [CallTriggerSync; CallIsSyncFinished].

(** The completion signal of a poll request. *)
Definition processedCalls (trigger : Trigger) : list Call :=
  match trigger with
  | PollRequest => [CallEventProcessed]
  | _ => []
  end.

(** A remote that cannot be reached. *)
Definition envOffline : Env :=
  scenario (fun _ => inr ErrAPINotReachable) None false None.

(** An address delta that processAddresses can handle without
    dereferencing a nil Address: a create carries its address, and so
    does an update of an address that the old list has. *)
Definition addressEventOk (oldList : list Address) (addressEvent : EventAddress) : bool :=
  match ea_Action addressEvent with
  | EventCreate =>
      match ea_Address addressEvent with Some _ => true | None => false end
  | EventUpdate =>
      match ByID oldList (ea_ID addressEvent), ea_Address addressEvent with
      | Some _, None => false
      | _, _ => true
      end
  | _ => true
  end.

(** The store call processLabels makes for a label delta, if any. *)
Definition labelCall (eventLabel : EventLabel) : list Call :=
  match el_Action eventLabel with
  | EventCreate | EventUpdate => [CallCreateOrUpdateMailboxEvent (el_Label eventLabel)]
  | EventDelete => [CallDeleteMailboxEvent (el_ID eventLabel)]
  | _ => []
  end.

(** What the store answers to a call of processLabels made at clock [t],
    and the message processLabels wraps a failure of that call in. *)
Definition labelAnswer (env : Env) (t : nat) (c : Call) : option error :=
  match c with
  | CallCreateOrUpdateMailboxEvent _ => on_createOrUpdateMailboxEvent env t
  | CallDeleteMailboxEvent _ => on_deleteMailboxEvent env t
  | _ => None
  end.

Definition labelMessage (c : Call) : string :=
  match c with
  | CallDeleteMailboxEvent _ => "failed to delete label"
  | _ => "failed to create or update label"
  end.

(** The answers of the store to the calls [cs] made one after the other
    from clock [t] on. *)
Fixpoint labelAnswers (env : Env) (t : nat) (cs : list Call) : list (option error) :=
  match cs with
  | [] => []
  | c :: rest => labelAnswer env t c :: labelAnswers env (S t) rest
  end.

Definition isNil (err : option error) : bool :=
  match err with None => true | Some _ => false end.

(** A store whose second call fails, and three label deltas. *)
Definition envSecondLabelCallFails : Env :=
  {| userID := "user";
     on_GetEvent := fun _ _ => inr ErrAPINotReachable;
     on_Addresses := fun _ => [];
     on_UpdateUser := fun _ => None;
     on_Logout := fun _ => None;
     on_GetPrimaryAddress := fun _ => "user@pm.me";
     on_GetStoreAddresses := fun _ => ["user@pm.me"];
     on_setEventID := fun _ => None;
     on_isSyncFinished := fun _ => true;
     on_isSynced := fun _ => inl true;
     on_createOrUpdateAddressInfo := fun _ => None;
     on_createOrDeleteAddressesEvent := fun _ => None;
     on_createOrUpdateMailboxEvent := fun t => if (t =? 1)%nat then Some (ErrOther "busy") else None;
     on_deleteMailboxEvent := fun t => if (t =? 1)%nat then Some (ErrOther "locked") else None;
     on_createOrUpdateMessageEvent := fun _ => None;
     on_getMessageFromDB := fun _ _ => inr ErrNoSuchAPIID;
     on_fetchMessage := fun _ _ => inr ErrNoSuchAPIID;
     on_deleteMessageEvent := fun _ => None;
     on_isFdCloseToULimit := fun _ => false;
     on_imapSendTimesOut := fun _ => false |}.

Definition threeLabels : list EventLabel :=
  [ {| el_ID := "L1"; el_Action := EventCreate;
       el_Label := Some {| label_ID := "L1"; label_Name := "work"; label_Color := "#fff" |} |};
    {| el_ID := "L2"; el_Action := EventDelete; el_Label := None |};
    {| el_ID := "L3"; el_Action := EventUpdate; el_Label := None |} ].

(** A result of processMessages that is a wrapped store or fetch
    failure, as opposed to nil or the ErrNoSuchAPIID left by a skip. *)
Definition isWrapped (err : option error) : bool :=
  match err with Some (Wrap _ _) => true | _ => false end.

(** The update imapNotice sends. *)
Definition alert (notice address : string) : StatusUpdate :=
  {| su_Username := address; su_Type := "OK"; su_Code := "ALERT"; su_Info := notice |}.

Definition isEmit (c : Call) : bool :=
  match c with CallEmit _ _ => true | _ => false end.

(** An update delta of an address the old list has, without its address. *)
Definition updateWithoutAddress : EventAddress :=
  {| ea_ID := "a1"; ea_Action := EventUpdate; ea_Address := None |}.

Definition address1 : Address :=
  {| addr_ID := "a1"; addr_Email := "one@pm.me"; addr_Receive := 1 |}.

(** A loop state with a registered IMAP channel that received nothing. *)
Definition listening (id : string) : State := setImapUpdates (Some []) (loopAt id).

(** ** imap_updates.go with its four kinds of update

    The event loop sends status updates only, and [State] keeps the
    channel restricted to them.  Here the channel carries every kind of
    update the file builds. *)
Module ImapUpdates.

(** What is sent: imapBackend.StatusUpdate, MessageUpdate, ExpungeUpdate
    and MailboxUpdate, with the fields the file sets. *)
Inductive Update :=
| Status (update : StatusUpdate)
| MessageFlags (username mailbox : string) (seqNum uid : Z) (flags : list string)
| Expunge (username mailbox : string) (seqNum : Z)
| MailboxCounts (username mailbox : string) (messages unseen : Z).

(** The conversion [uint32(n)] of an unsigned [n]. *)
Definition uint32 (n : Z) : Z := n mod 2 ^ 32.

(** The field imapUpdates of the store: [None] when nil, otherwise the
    updates its receiver got. *)
Record Store := { imapUpdates : option (list Update) }.

Definition SetIMAPUpdateChannel (updates : option (list Update)) (store : Store) : Store :=
  {| imapUpdates := updates |}.

(** [timesOut] tells which case of the select is taken. *)
Definition imapSendUpdate (timesOut : bool) (update : Update) (store : Store) : Store :=
  match imapUpdates store with
  | None => store
  | Some received =>
      if timesOut then store else {| imapUpdates := Some (received ++ [update]) |}
  end.

Definition imapNotice (timesOut : bool) (address notice : string) (store : Store) : Store :=
  imapSendUpdate timesOut
    (Status {| su_Username := address; su_Type := "OK";
               su_Code := "ALERT"; su_Info := notice |}) store.

Section Flags.

(** message.GetFlags of package pkg/message. *)
Variable GetFlags : Message -> list string.

Definition imapUpdateMessage (timesOut : bool) (address mailboxName : string)
    (uid sequenceNumber : Z) (msg : Message) (store : Store) : Store :=
  imapSendUpdate timesOut
    (MessageFlags address mailboxName sequenceNumber uid (GetFlags msg)) store.

End Flags.

Definition imapDeleteMessage (timesOut : bool) (address mailboxName : string)
    (sequenceNumber : Z) (store : Store) : Store :=
  imapSendUpdate timesOut (Expunge address mailboxName sequenceNumber) store.

Definition imapMailboxStatus (timesOut : bool) (address mailboxName : string)
    (total unread : Z) (store : Store) : Store :=
  imapSendUpdate timesOut
    (MailboxCounts address mailboxName (uint32 total) (uint32 unread)) store.

(** A call of one of the four functions. *)
Inductive Request :=
| Notice (address notice : string)
| UpdateMessage (address mailboxName : string) (uid sequenceNumber : Z) (msg : Message)
| DeleteMessage (address mailboxName : string) (sequenceNumber : Z)
| MailboxStatus (address mailboxName : string) (total unread : Z).

Definition perform (GetFlags : Message -> list string) (timesOut : bool)
    (request : Request) (store : Store) : Store :=
  match request with
  | Notice address notice => imapNotice timesOut address notice store
  | UpdateMessage address mailboxName uid sequenceNumber msg =>
      imapUpdateMessage GetFlags timesOut address mailboxName uid sequenceNumber msg store
  | DeleteMessage address mailboxName sequenceNumber =>
      imapDeleteMessage timesOut address mailboxName sequenceNumber store
  | MailboxStatus address mailboxName total unread =>
      imapMailboxStatus timesOut address mailboxName total unread store
  end.

(** Calls made one after the other, each with the outcome of its select. *)
Fixpoint performAll (GetFlags : Message -> list string)
    (requests : list (Request * bool)) (store : Store) : Store :=
  match requests with
  | [] => store
  | (request, timesOut) :: rest =>
      performAll GetFlags rest (perform GetFlags timesOut request store)
  end.

(** The update a call builds. *)
Definition updateOf (GetFlags : Message -> list string) (request : Request) : Update :=
  match request with
  | Notice address notice =>
      Status {| su_Username := address; su_Type := "OK";
                su_Code := "ALERT"; su_Info := notice |}
  | UpdateMessage address mailboxName uid sequenceNumber msg =>
      MessageFlags address mailboxName sequenceNumber uid (GetFlags msg)
  | DeleteMessage address mailboxName sequenceNumber =>
      Expunge address mailboxName sequenceNumber
  | MailboxStatus address mailboxName total unread =>
      MailboxCounts address mailboxName (uint32 total) (uint32 unread)
  end.

(** The updates of the calls whose send did not time out. *)
Definition delivered (GetFlags : Message -> list string)
    (requests : list (Request * bool)) : list Update :=
  map (fun r => updateOf GetFlags (fst r)) (List.filter (fun r => negb (snd r)) requests).

End ImapUpdates.

(** The in-memory cursor is the persisted one. *)
Definition agree (env : Env) (s : State) : Prop :=
  currentEventID s = persisted env s.

(** No GetEvent call is added to the log. *)
Definition noFetch (s s' : State) : Prop :=
  exists l, calls s' = l ++ calls s /\ List.filter isGetEvent l = [].

(** ** Facts about the label loops *)

Lemma hasLabel_In x xs : hasLabel x xs = true <-> In x xs.
Proof.
  unfold hasLabel. rewrite existsb_exists. split.
  - intros [y [Hy He]]. apply String.eqb_eq in He. now subst.
  - intros H. exists x. split; [assumption | apply String.eqb_refl].
Qed.

Lemma hasLabel_false x xs : hasLabel x xs = false <-> ~ In x xs.
Proof.
  rewrite <- hasLabel_In. destruct (hasLabel x xs); split; intros; congruence.
Qed.

Lemma removeLabels_filter acc labels removed :
  removeLabels acc labels removed = acc ++ labelDifference labels removed.
Proof.
  revert acc. induction labels as [|l rest IH]; intros acc; simpl.
  - now rewrite app_nil_r.
  - rewrite IH. destruct (hasLabel l removed); simpl; [reflexivity|].
    now rewrite <- app_assoc.
Qed.

(** The add loop only appends, and what it appends is duplicate-free,
    comes from [added] and was not there before. *)
Lemma addLabels_spec added : forall labels,
  exists new, addLabels labels added = labels ++ new
    /\ List.NoDup new
    /\ (forall x, In x new <-> In x added /\ ~ In x labels).
Proof.
  induction added as [|a rest IH]; intros labels; simpl.
  - exists []. rewrite app_nil_r. repeat split; try constructor; simpl; tauto.
  - destruct (hasLabel a labels) eqn:Ha.
    + apply hasLabel_In in Ha.
      destruct (IH labels) as [new [E [ND M]]]. exists new.
      split; [assumption|]. split; [assumption|].
      intros x. rewrite M. simpl. split; [tauto|].
      intros [[<-|H] Hn]; [contradiction|]. tauto.
    + apply hasLabel_false in Ha.
      destruct (IH (labels ++ [a])) as [new [E [ND M]]]. exists (a :: new).
      split; [now rewrite E, <- app_assoc|]. split.
      * constructor; [|assumption]. intros H. apply M in H.
        destruct H as [_ H]. apply H. apply in_or_app. right. now left.
      * intros x. simpl. rewrite M, in_app_iff. simpl. split.
        -- intros [<-|[H1 H2]]; [tauto|]. tauto.
        -- intros [[<-|H1] H2]; [tauto|].
           destruct (String.eqb_spec a x) as [->|Hne]; [tauto|]. right. tauto.
Qed.

Lemma addLabels_union labels added x :
  In x (addLabels labels added) <-> In x labels \/ In x added.
Proof.
  destruct (addLabels_spec added labels) as [new [E [_ M]]].
  rewrite E, in_app_iff, M. split; [tauto|].
  intros [H|H]; [tauto|].
  destruct (hasLabel x labels) eqn:Hx.
  - apply hasLabel_In in Hx. tauto.
  - apply hasLabel_false in Hx. tauto.
Qed.

Lemma labelDifference_In labels removed x :
  In x (labelDifference labels removed) <-> In x labels /\ ~ In x removed.
Proof.
  unfold labelDifference. rewrite filter_In, negb_true_iff, hasLabel_false. tauto.
Qed.

Lemma labelDifference_id labels removed :
  (forall x, In x labels -> ~ In x removed) ->
  labelDifference labels removed = labels.
Proof.
  intros H. unfold labelDifference. induction labels as [|l rest IH]; simpl; [reflexivity|].
  assert (Hl : hasLabel l removed = false) by (apply hasLabel_false, H; now left).
  rewrite Hl. simpl. f_equal. apply IH. intros x Hx. apply H. now right.
Qed.

Lemma labelDifference_nil labels removed :
  (forall x, In x labels -> In x removed) ->
  labelDifference labels removed = [].
Proof.
  intros H. unfold labelDifference. induction labels as [|l rest IH]; simpl; [reflexivity|].
  assert (Hl : hasLabel l removed = true) by (apply hasLabel_In, H; now left).
  rewrite Hl. simpl. apply IH. intros x Hx. apply H. now right.
Qed.

Lemma labelDifference_app l1 l2 removed :
  labelDifference (l1 ++ l2) removed = labelDifference l1 removed ++ labelDifference l2 removed.
Proof. unfold labelDifference. apply List.filter_app. Qed.

Lemma reconcileLabels_eq labels added removed :
  reconcileLabels labels added removed = labelDifference (addLabels labels added) removed.
Proof. unfold reconcileLabels. now rewrite removeLabels_filter. Qed.

Lemma reconcileLabels_idem labels added removed :
  reconcileLabels (reconcileLabels labels added removed) added removed
  = reconcileLabels labels added removed.
Proof.
  rewrite !reconcileLabels_eq.
  set (once := labelDifference (addLabels labels added) removed).
  destruct (addLabels_spec added once) as [new [E [_ M]]].
  rewrite E, labelDifference_app.
  rewrite (labelDifference_id once), (labelDifference_nil new).
  - apply app_nil_r.
  - intros x Hx. apply M in Hx. destruct Hx as [Hadd Hnot].
    destruct (hasLabel x removed) eqn:Hr; [now apply hasLabel_In in Hr|].
    apply hasLabel_false in Hr. exfalso. apply Hnot.
    unfold once. apply labelDifference_In. split; [|assumption].
    apply addLabels_union. now right.
  - intros x Hx. unfold once in Hx. apply labelDifference_In in Hx. tauto.
Qed.

(** ** Effects that leave a relation between states intact *)

Section Frame.

Variable R : State -> State -> Prop.
Hypothesis R_refl : forall s, R s s.
Hypothesis R_trans : forall s1 s2 s3, R s1 s2 -> R s2 s3 -> R s1 s3.
Hypothesis R_call : forall c s, R s (setCalls (c :: calls s) s).
Hypothesis R_internet : forall b s, R s (setHasInternet b s).
Hypothesis R_imap : forall ch s, R s (setImapUpdates ch s).

Lemma keeps_ret {A} (a : A) : keeps R (ret a).
Proof. intros s. apply R_refl. Qed.

Lemma keeps_panic {A} : keeps R (@panic A).
Proof. intros s. apply R_refl. Qed.

Lemma keeps_gets {A} (f : State -> A) : keeps R (gets f).
Proof. intros s. apply R_refl. Qed.

Lemma keeps_bind {A B} (m : M A) (k : A -> M B) :
  keeps R m -> (forall a, keeps R (k a)) -> keeps R (bind m k).
Proof.
  intros Hm Hk s. unfold bind. specialize (Hm s).
  destruct (m s) as [[a|] s1]; simpl in *; [|assumption].
  eapply R_trans; [exact Hm | apply Hk].
Qed.

Lemma keeps_call c : keeps R (call c).
Proof. intros s. apply R_call. Qed.

Lemma keeps_setHasInternet b : keeps R (modify (setHasInternet b)).
Proof. intros s. apply R_internet. Qed.

Lemma keeps_imapSendUpdate env u : keeps R (imapSendUpdate env u).
Proof.
  intros s. unfold imapSendUpdate.
  destruct (imapUpdates s); [|apply R_refl].
  destruct (on_imapSendTimesOut env _); simpl; [apply R_call|].
  eapply R_trans; [apply R_call | apply R_imap].
Qed.

Ltac keeps_step :=
  first
    [ apply keeps_ret | apply keeps_panic | apply keeps_gets | apply keeps_call
    | apply keeps_setHasInternet | apply keeps_imapSendUpdate
    | assumption
    | apply keeps_bind; [| intros ?]
    | match goal with
      | |- keeps _ (match ?x with _ => _ end) => destruct x
      | |- keeps _ (if ?b then _ else _) => destruct b
      | |- keeps _ (whenM ?b _) => unfold whenM
      end ].

Ltac keeps_tac := repeat keeps_step.

Lemma keeps_emit name data : keeps R (emit name data).
Proof. unfold emit. keeps_tac. Qed.

Lemma keeps_triggerSync : keeps R triggerSync.
Proof. unfold triggerSync. keeps_tac. Qed.

Lemma keeps_userLogout env : keeps R (userLogout env).
Proof. unfold userLogout. keeps_tac. Qed.

Lemma keeps_processAddressEvents env old l : keeps R (processAddressEvents env old l).
Proof.
  induction l as [|a rest IH]; simpl; [apply keeps_ret|].
  apply keeps_bind; [|intros _; exact IH].
  unfold processAddressEvent, emit. keeps_tac.
Qed.

Lemma keeps_processAddresses env l : keeps R (processAddresses env l).
Proof.
  unfold processAddresses, apiAddresses, userLogout.
  apply keeps_bind; [keeps_tac|]. intros old.
  apply keeps_bind; [keeps_tac|]. intros t.
  destruct (on_UpdateUser env t); [keeps_tac|].
  apply keeps_bind; [apply keeps_processAddressEvents|]. intros _.
  keeps_tac.
Qed.

Lemma keeps_processLabels env l : keeps R (processLabels env l).
Proof.
  induction l as [|a rest IH]; simpl; [apply keeps_ret|].
  destruct (el_Action a); keeps_tac.
Qed.

Lemma keeps_processMessagesFrom env l : forall err, keeps R (processMessagesFrom env err l).
Proof.
  induction l as [|a rest IH]; intros err; simpl; [apply keeps_ret|].
  unfold createOrUpdateMessageEvent, getMessageFromDB, fetchMessage, deleteMessageEvent.
  destruct (em_Action a); keeps_tac; apply IH.
Qed.

Lemma keeps_processMessageCounts env l : keeps R (processMessageCounts env l).
Proof. unfold processMessageCounts, triggerSync. keeps_tac. Qed.

Lemma keeps_imapNoticeAll env l n : keeps R (imapNoticeAll env l n).
Proof.
  induction l as [|a rest IH]; simpl; [apply keeps_ret|].
  unfold imapNotice. keeps_tac.
Qed.

Lemma keeps_processNotices env l : keeps R (processNotices env l).
Proof.
  induction l as [|a rest IH]; simpl; [apply keeps_ret|].
  apply keeps_bind; [keeps_tac|]. intros t.
  apply keeps_bind; [apply keeps_imapNoticeAll|]. intros _. exact IH.
Qed.

Lemma keeps_processEvent env ev : keeps R (processEvent env ev).
Proof.
  unfold processEvent, ifNonEmpty, processMessages, triggerSync.
  destruct (negb _); [keeps_tac|].
  apply keeps_bind; [destruct (Addresses ev); [apply keeps_ret|apply keeps_processAddresses]|].
  intros [e|]; [apply keeps_ret|].
  apply keeps_bind; [destruct (Labels ev); [apply keeps_ret|apply keeps_processLabels]|].
  intros [e|]; [apply keeps_ret|].
  apply keeps_bind; [destruct (Messages ev); [apply keeps_ret|apply keeps_processMessagesFrom]|].
  intros [e|]; [apply keeps_ret|].
  apply keeps_bind; [destruct (MessageCounts ev); [apply keeps_ret|apply keeps_processMessageCounts]|].
  intros [e|]; [apply keeps_ret|].
  apply keeps_bind; [|intros _; apply keeps_ret].
  destruct (Notices ev); [apply keeps_ret|apply keeps_processNotices].
Qed.

Lemma keeps_classify env err : keeps R (classify env err).
Proof. unfold classify, emit. keeps_tac. Qed.

End Frame.

(** ** Equations of the monad *)

Lemma bind_ret {A B} (a : A) (k : A -> M B) s : bind (ret a) k s = k a s.
Proof. reflexivity. Qed.

Lemma bind_gets {A B} (f : State -> A) (k : A -> M B) s : bind (gets f) k s = k (f s) s.
Proof. reflexivity. Qed.

Lemma bind_modify {B} (f : State -> State) (k : unit -> M B) s :
  bind (modify f) k s = k tt (f s).
Proof. reflexivity. Qed.

Lemma bind_call {B} (c : Call) (k : nat -> M B) s :
  bind (call c) k s = k (length (calls s)) (setCalls (c :: calls s) s).
Proof. reflexivity. Qed.

Lemma bind_bind {A B C} (m : M A) (k1 : A -> M B) (k2 : B -> M C) s :
  bind (bind m k1) k2 s = bind m (fun a => bind (k1 a) k2) s.
Proof. unfold bind. destruct (m s) as [[a|] s1]; reflexivity. Qed.

Lemma bind_eq {A B} (m : M A) (k : A -> M B) s a s1 :
  m s = (Ok a, s1) -> bind m k s = k a s1.
Proof. intros E. unfold bind. now rewrite E. Qed.

Lemma bind_panicked {A B} (m : M A) (k : A -> M B) s s1 :
  m s = (Panicked, s1) -> bind m k s = (Panicked, s1).
Proof. intros E. unfold bind. now rewrite E. Qed.

Lemma bind_ext {A B} (m : M A) (k1 k2 : A -> M B) s :
  (forall a s', k1 a s' = k2 a s') -> bind m k1 s = bind m k2 s.
Proof. intros H. unfold bind. destruct (m s) as [[a|] s1]; [apply H|reflexivity]. Qed.

Lemma bind_head {A B} (m1 m2 : M A) (k : A -> M B) s :
  m1 s = m2 s -> bind m1 k s = bind m2 k s.
Proof. intros H. unfold bind. now rewrite H. Qed.

Ltac mstep :=
  repeat first
    [ rewrite bind_bind | rewrite bind_ret | rewrite bind_gets
    | rewrite bind_modify | rewrite bind_call ].

(** ** The cursor along a run *)

Lemma frames_of_keeps {A} (m : M A) :
  (forall R : State -> State -> Prop,
      (forall s, R s s) ->
      (forall s1 s2 s3, R s1 s2 -> R s2 s3 -> R s1 s3) ->
      (forall c s, R s (setCalls (c :: calls s) s)) ->
      (forall b s, R s (setHasInternet b s)) ->
      (forall ch s, R s (setImapUpdates ch s)) ->
      keeps R m) ->
  keeps sameCursor m /\ keeps extendsLog m.
Proof.
  intros H. split; apply H; unfold sameCursor, extendsLog; simpl; intros.
  - tauto.
  - destruct H0, H1. split; congruence.
  - tauto.
  - tauto.
  - tauto.
  - now exists [].
  - destruct H0 as [l1 E1], H1 as [l2 E2]. exists (l2 ++ l1).
    now rewrite E2, E1, app_assoc.
  - now exists [c].
  - now exists [].
  - now exists [].
Qed.

Lemma processEvent_frame env ev :
  keeps sameCursor (processEvent env ev) /\ keeps extendsLog (processEvent env ev).
Proof. apply frames_of_keeps. intros. now apply keeps_processEvent. Qed.

Lemma classify_frame env err :
  keeps sameCursor (classify env err) /\ keeps extendsLog (classify env err).
Proof. apply frames_of_keeps. intros. now apply keeps_classify. Qed.

Lemma advance_nil env s s' : sameCursor s s' -> advance env [] s s'.
Proof.
  intros [H1 H2]. unfold advance, persisted. simpl. rewrite H1, H2. tauto.
Qed.

Lemma advance_app env ids1 ids2 s1 s2 s3 :
  advance env ids1 s1 s2 -> advance env ids2 s2 s3 ->
  advance env (ids1 ++ ids2) s1 s3.
Proof.
  intros [C1 P1] [C2 P2]. split.
  - rewrite C2, C1. clear. revert ids1. induction ids2 as [|x l IH] using rev_ind; intros ids1.
    + now rewrite app_nil_r.
    + now rewrite app_assoc, !List.last_last.
  - rewrite in_app_iff. destruct P2 as [P2|P2]; [rewrite P2|]; tauto.
Qed.

Lemma advance_same_r env ids s1 s2 s3 :
  advance env ids s1 s2 -> sameCursor s2 s3 -> advance env ids s1 s3.
Proof.
  intros H1 H2. apply advance_nil with (env := env) in H2.
  rewrite <- (app_nil_r ids). eapply advance_app; eassumption.
Qed.

Lemma advance_same_l env ids s1 s2 s3 :
  sameCursor s1 s2 -> advance env ids s2 s3 -> advance env ids s1 s3.
Proof.
  intros H1 H2. apply advance_nil with (env := env) in H1.
  change ids with ([] ++ ids). eapply advance_app; eassumption.
Qed.

Lemma persisted_insert env id s :
  persisted env (setCache (<[userID env := id]> (cache s)) s) = id.
Proof. unfold persisted, getEventID. simpl. now rewrite lookup_insert_eq. Qed.

Lemma setFirstEventID_advance env s :
  advance env
    (match on_GetEvent env (length (calls s)) "" with
     | inl event => [EventID event]
     | inr _ => []
     end) s (snd (setFirstEventID env s)).
Proof.
  unfold setFirstEventID, apiGetEvent, bind, call, modify, gets, ret. simpl.
  destruct (on_GetEvent env _ _) as [ev|e]; simpl.
  - unfold cacheSetEventID, bind, call, modify, ret. simpl.
    destruct (on_setEventID env _); simpl; split; simpl; try tauto.
    right. left. symmetry.
    apply (persisted_insert env (EventID ev) (setCalls _ (setCurrentEventID (EventID ev) s))).
  - split; simpl; tauto.
Qed.

Lemma startPrelude_advance env s :
  advance env (map EventID (headEvent env s)) s (snd (startPrelude env s)).
Proof.
  unfold startPrelude, isBeforeFirstStart, headEvent.
  unfold bind at 1. unfold gets at 1. simpl.
  destruct (String.eqb (currentEventID s) ""); simpl.
  - pose proof (setFirstEventID_advance env s) as H.
    unfold bind at 1. unfold bind at 1.
    destruct (setFirstEventID env s) as [[r|] s1]; simpl in *.
    + eapply advance_same_r.
      * destruct (on_GetEvent env _ _); exact H.
      * unfold bind, call, whenM, triggerSync, ret. simpl.
        destruct (negb _); split; reflexivity.
    + destruct (on_GetEvent env _ _); exact H.
  - apply advance_nil. unfold bind, call, whenM, triggerSync, ret. simpl.
    destruct (negb _); split; reflexivity.
Qed.

Lemma backOnline_ok s :
  whenM (negb (hasInternet s))
        (emit InternetOnEvent "" ;;; modify (setHasInternet true))
        (setCalls (CallGetEvent (currentEventID s) :: calls s) s)
  = (Ok tt, fetched s).
Proof. unfold fetched. destruct (hasInternet s); reflexivity. Qed.

Lemma fetched_frame s : sameCursor s (fetched s).
Proof. unfold fetched. destruct (hasInternet s); split; reflexivity. Qed.


(** processNextEventBody, once the event is fetched. *)
Lemma processNextEventBody_fetch env s event :
  on_GetEvent env (length (calls s)) (currentEventID s) = inl event ->
  processNextEventBody env s =
  (err <- processEvent env event ;;
   match err with
   | Some e => ret (false, Some (Wrap e "failed to process event"))
   | None =>
       current <- gets currentEventID ;;
       if negb (String.eqb current (EventID event)) then
         modify (setCurrentEventID (EventID event)) ;;;
         werr <- cacheSetEventID env (userID env) (EventID event) ;;
         match werr with
         | Some e => ret (false, Some (Wrap e "failed to save event ID to cache"))
         | None => ret (More event =? 1, None)
         end
       else ret (More event =? 1, None)
   end) (fetched s).
Proof.
  intros H. unfold processNextEventBody, apiGetEvent. mstep. rewrite H. mstep.
  simpl hasInternet. now rewrite (bind_eq _ _ _ _ _ (backOnline_ok s)).
Qed.

Lemma processNextEventBody_offline env s err :
  on_GetEvent env (length (calls s)) (currentEventID s) = inr err ->
  processNextEventBody env s =
  (Ok (false, Some (Wrap err "failed to get event")),
   setCalls (CallGetEvent (currentEventID s) :: calls s) s).
Proof.
  intros H. unfold processNextEventBody, apiGetEvent. mstep. now rewrite H.
Qed.

Lemma processNextEventBody_advance env s :
  advance env (map EventID (appliedEvent env s)) s (snd (processNextEventBody env s)).
Proof.
  unfold appliedEvent.
  destruct (on_GetEvent env (length (calls s)) (currentEventID s)) as [ev|e] eqn:Hget.
  2: { rewrite (processNextEventBody_offline _ _ _ Hget).
       apply advance_nil. split; reflexivity. }
  rewrite (processNextEventBody_fetch _ _ _ Hget).
  pose proof (fetched_frame s) as F02.
  pose proof (proj1 (processEvent_frame env ev) (fetched s)) as F3.
  unfold bind at 1.
  destruct (processEvent env ev (fetched s)) as [[[e|]|] s3]; simpl fst; simpl snd in F3.
  - apply advance_nil. destruct F02, F3. split; simpl; congruence.
  - mstep.
    assert (F03 : sameCursor s s3) by (destruct F02, F3; split; congruence).
    destruct (negb (String.eqb (currentEventID s3) (EventID ev))) eqn:Hne.
    + unfold cacheSetEventID. mstep.
      destruct F03 as [A B].
      destruct (on_setEventID env _); mstep; split; simpl; try tauto.
      * left. unfold persisted. simpl. now rewrite B.
      * right. left. symmetry.
        apply (persisted_insert env (EventID ev) (setCalls _ (setCurrentEventID (EventID ev) s3))).
    + apply negb_false_iff, String.eqb_eq in Hne.
      destruct F03 as [A B]. split; simpl.
      * congruence.
      * left. unfold persisted. now rewrite B.
  - apply advance_nil. destruct F02, F3. split; simpl; congruence.
Qed.

Lemma snd_bind {A B} (m : M A) (k : A -> M B) s :
  snd (bind m k s) =
  match m s with
  | (Ok a, s1) => snd (k a s1)
  | (Panicked, s1) => s1
  end.
Proof. unfold bind. destruct (m s) as [[a|] s1]; reflexivity. Qed.

Lemma processNextEvent_advance env s :
  advance env (map EventID (appliedEvent env s)) s (snd (processNextEvent env s)).
Proof.
  pose proof (processNextEventBody_advance env s) as H.
  unfold processNextEvent. rewrite snd_bind.
  destruct (processNextEventBody env s) as [[r|] s1]; simpl snd in H; [|exact H].
  eapply advance_same_r; [exact H|].
  rewrite snd_bind.
  pose proof (proj1 (classify_frame env (snd r)) s1) as F.
  destruct (classify env (snd r) s1) as [[e|] s2]; exact F.
Qed.

Lemma startFinish_frame env trigger r :
  keeps sameCursor (startFinish env trigger r)
  /\ keeps extendsLog (startFinish env trigger r).
Proof.
  apply frames_of_keeps. intros R H1 H2 H3 H4 H5.
  unfold startFinish, userLogout.
  apply keeps_bind; try assumption.
  - destruct trigger; [apply keeps_ret; assumption| |apply keeps_ret; assumption].
    apply keeps_bind; try assumption; [now apply keeps_call|].
    intros ?. now apply keeps_ret.
  - intros _. destruct (snd r).
    + apply keeps_bind; try assumption.
      * apply keeps_bind; try assumption; [now apply keeps_call|].
        intros ?. now apply keeps_ret.
      * intros ?. now apply keeps_ret.
    + apply keeps_bind; try assumption; [|intros ?; now apply keeps_ret].
      unfold whenM. destruct (fst r); [|now apply keeps_ret].
      apply keeps_bind; try assumption; [now apply keeps_call|].
      intros ?. now apply keeps_ret.
Qed.

Lemma setFirstEventID_ok env s :
  exists r s1, setFirstEventID env s = (Ok r, s1).
Proof.
  unfold setFirstEventID, apiGetEvent. mstep.
  destruct (on_GetEvent env _ _); mstep; [|eauto].
  unfold cacheSetEventID. mstep.
  destruct (on_setEventID env _); mstep; eauto.
Qed.

Lemma startPrelude_ok env s : exists s1, startPrelude env s = (Ok tt, s1).
Proof.
  unfold startPrelude, isBeforeFirstStart. mstep.
  destruct (String.eqb (currentEventID s) ""); simpl whenM.
  - mstep. destruct (setFirstEventID_ok env s) as [r [s1 E]].
    rewrite (bind_eq _ _ _ _ _ E). mstep.
    unfold whenM, triggerSync. destruct (negb _); mstep; eauto.
  - mstep. unfold whenM, triggerSync. destruct (negb _); mstep; eauto.
Qed.

Lemma iteration_advance env trigger s :
  advance env (map EventID (appliedIn env trigger s)) s (snd (iteration env trigger s)).
Proof.
  assert (Hgo : advance env (map EventID (headEvent env s ++ appliedEvent env (snd (startPrelude env s))))
                  s (snd ((startPrelude env ;;; r <- processNextEvent env ;; startFinish env trigger r) s))).
  { rewrite map_app. rewrite snd_bind.
    pose proof (startPrelude_advance env s) as H1.
    destruct (startPrelude_ok env s) as [s1 E1]. rewrite E1 in *. simpl snd in *.
    eapply advance_app; [exact H1|]. rewrite snd_bind.
    pose proof (processNextEvent_advance env s1) as H2.
    destruct (processNextEvent env s1) as [[r|] s2]; simpl snd in *; [|exact H2].
    eapply advance_same_r; [exact H2|].
    apply (proj1 (startFinish_frame env trigger r)). }
  destruct trigger; [|exact Hgo|exact Hgo].
  apply advance_nil. split; reflexivity.
Qed.

Lemma loopFor_advance env triggers : forall s,
  advance env (map EventID (appliedAlong env triggers s)) s (snd (loopFor env triggers s)).
Proof.
  induction triggers as [|t rest IH]; intros s; simpl.
  - apply advance_nil. split; reflexivity.
  - rewrite map_app, snd_bind.
    pose proof (iteration_advance env t s) as H.
    destruct (iteration env t s) as [[[]|] s1]; simpl snd in *.
    + eapply advance_app; [exact H | apply IH].
    + simpl. rewrite app_nil_r. exact H.
    + simpl. rewrite app_nil_r. exact H.
Qed.

(** Running further select outcomes continues the run made so far. *)
Lemma loopFor_app env triggers more : forall s,
  match loopFor env triggers s with
  | (Ok true, s1) =>
      loopFor env (triggers ++ more) s = loopFor env more s1
      /\ appliedAlong env (triggers ++ more) s
         = appliedAlong env triggers s ++ appliedAlong env more s1
  | _ =>
      loopFor env (triggers ++ more) s = loopFor env triggers s
      /\ appliedAlong env (triggers ++ more) s = appliedAlong env triggers s
  end.
Proof.
  induction triggers as [|t rest IH]; intros s.
  - simpl. split; reflexivity.
  - simpl. unfold bind.
    destruct (iteration env t s) as [[[]|] s1]; simpl.
    + specialize (IH s1).
      destruct (loopFor env rest s1) as [[[]|] s2]; destruct IH as [E1 E2];
        rewrite E1, E2; split; try reflexivity.
      now rewrite app_assoc.
    + split; reflexivity.
    + split; reflexivity.
Qed.

Lemma start_unfold env triggers s :
  isRunning s = false ->
  sameCursor (snd (loopFor env triggers (started s))) (snd (start env triggers s)).
Proof.
  intros H. unfold start. rewrite H. fold (started s).
  destruct (loopFor env triggers (started s)) as [[[]|] s1]; split; reflexivity.
Qed.

(** C1: from a fresh event loop, after any run of the loop the in-memory
    cursor is the id of the last event applied so far (the cached id when
    none was), the persisted cursor is the cached id it started from or
    the id of an applied event, and running the loop further moves both
    only to ids of events applied in that further part: the persisted
    cursor never takes an id outside the stream of applied events and
    never returns to an earlier one. *)
Theorem cursor_follows_applied_events env c imap triggers more :
  let s0 := newEventLoop env c imap in
  let s := snd (start env triggers s0) in
  let s' := snd (start env (triggers ++ more) s0) in
  let ids := map EventID (appliedBy env triggers s0) in
  currentEventID s = List.last ids (getEventID c (userID env))
  /\ (persisted env s = getEventID c (userID env) \/ In (persisted env s) ids)
  /\ exists new,
       appliedBy env (triggers ++ more) s0 = appliedBy env triggers s0 ++ new
       /\ currentEventID s' = List.last (map EventID new) (currentEventID s)
       /\ (persisted env s' = persisted env s \/ In (persisted env s') (map EventID new)).
Proof.
  intros s0 s s' ids.
  assert (Hrun : isRunning s0 = false) by reflexivity.
  assert (H0 : sameCursor s0 (started s0)) by (split; reflexivity).
  pose proof (start_unfold env triggers s0 Hrun) as Hs. fold s in Hs.
  pose proof (start_unfold env (triggers ++ more) s0 Hrun) as Hs'. fold s' in Hs'.
  assert (Hids : ids = map EventID (appliedAlong env triggers (started s0))) by reflexivity.
  pose proof (loopFor_advance env triggers (started s0)) as Hadv. rewrite <- Hids in Hadv.
  assert (Hfull : advance env ids s0 s).
  { eapply advance_same_l; [exact H0|]. eapply advance_same_r; [exact Hadv|exact Hs]. }
  split; [exact (proj1 Hfull)|]. split; [exact (proj2 Hfull)|].
  assert (Hby : forall l, appliedBy env l s0 = appliedAlong env l (started s0)) by reflexivity.
  rewrite !Hby.
  pose proof (loopFor_app env triggers more (started s0)) as Happ.
  assert (Hback : forall a b, sameCursor a b -> sameCursor b a)
    by (intros a b [X Y]; split; congruence).
  destruct (loopFor env triggers (started s0)) as [[[]|] s1] eqn:E;
    destruct Happ as [E1 E2]; simpl snd in *.
  - exists (appliedAlong env more s1). split; [exact E2|].
    rewrite E1 in Hs'.
    change (advance env (map EventID (appliedAlong env more s1)) s s').
    eapply advance_same_l; [apply Hback; exact Hs|].
    eapply advance_same_r; [apply loopFor_advance|exact Hs'].
  - exists []. split; [now rewrite app_nil_r|].
    rewrite E1 in Hs'. simpl snd in Hs'.
    change (advance env [] s s'). apply advance_nil.
    destruct Hs as [A B], Hs' as [A' B']. split; congruence.
  - exists []. split; [now rewrite app_nil_r|].
    rewrite E1 in Hs'. simpl snd in Hs'.
    change (advance env [] s s'). apply advance_nil.
    destruct Hs as [A B], Hs' as [A' B']. split; congruence.
Qed.

(** A cold start on the stream e0, e1, e2: two ticks apply all three
    events and the cache ends on e2; when every cache write fails, the
    in-memory cursor still ends on e2 and the cache stays empty. *)
Example stream_applied_in_order :
  map EventID (appliedBy envStream [Tick; Tick] (newEventLoop envStream ∅ None))
    = ["e0"; "e1"; "e2"]
  /\ currentEventID (snd (start envStream [Tick; Tick] (newEventLoop envStream ∅ None))) = "e2"
  /\ persisted envStream (snd (start envStream [Tick; Tick] (newEventLoop envStream ∅ None)))
     = "e2"
  /\ persisted envStream (snd (start envStream [Tick] (newEventLoop envStream ∅ None)))
     = "e1".
Proof. repeat split. Qed.

Example stream_with_failing_cache :
  map EventID (appliedBy envStreamWriteFails [Tick; Tick]
                 (newEventLoop envStreamWriteFails ∅ None))
    = ["e0"; "e1"; "e2"]
  /\ currentEventID (snd (start envStreamWriteFails [Tick; Tick]
                            (newEventLoop envStreamWriteFails ∅ None))) = "e2"
  /\ persisted envStreamWriteFails
       (snd (start envStreamWriteFails [Tick; Tick]
               (newEventLoop envStreamWriteFails ∅ None))) = "".
Proof. repeat split. Qed.

(** Scenario S6: an invalid token ends the loop with one Logout; the
    select outcomes after it are not served. *)
Example invalid_token_run :
  isRunning (snd (start envInvalidToken [Tick; Tick; PollRequest]
                    (newEventLoop envInvalidToken {[ "user" := "e5" ]} None))) = false
  /\ calls (snd (start envInvalidToken [Tick; Tick; PollRequest]
                   (newEventLoop envInvalidToken {[ "user" := "e5" ]} None)))
     = [CallLogout; CallIsFdCloseToULimit; CallGetEvent "e5"; CallIsSyncFinished;
        CallGoPollNow].
Proof. repeat split. Qed.

(** ** The deferred classification *)

Lemma classify_nil env s : classify env None s = (Ok None, s).
Proof. reflexivity. Qed.

(** What the deferred function does with a non-nil error, check by check. *)
Lemma classify_result env err s :
  classify env (Some err) s =
  if isAPINotReachable (Cause (Some err)) then
    (Ok None, setHasInternet false (setCalls (CallEmit InternetOffEvent "" :: calls s) s))
  else
    let s1 := setCalls (CallIsFdCloseToULimit :: calls s) s in
    if on_isFdCloseToULimit env (length (calls s)) then
      (Ok None, setCalls (CallEmit RestartBridgeEvent "" :: calls s1) s1)
    else if isUpgradeApplication (Cause (Some err)) then
      (Ok None, setCalls (CallEmit UpgradeApplicationEvent "" :: calls s1) s1)
    else if isFatal err then (Ok (Some err), s1)
    else (Ok None, s1).
Proof.
  unfold classify, isFatal, Cause. simpl option_map.
  unfold emit.
  destruct (causeOf err) eqn:Hc; simpl isAPINotReachable; cbv iota; mstep;
    try reflexivity;
    destruct (on_isFdCloseToULimit env (length (calls s)));
    repeat first [progress mstep | rewrite Hc | progress simpl];
    reflexivity.
Qed.

Lemma processNextEvent_body env s more err s1 :
  processNextEventBody env s = (Ok (more, err), s1) ->
  processNextEvent env s = (r <- classify env err ;; ret (more, r)) s1.
Proof.
  intros H. unfold processNextEvent. now rewrite (bind_eq _ _ _ _ _ H).
Qed.

(** ** The file-descriptor probe (C5) *)

(** C5 as amended: whatever error the body of processNextEvent returns,
    if its cause is not NotReachable and the descriptor probe reports
    usage near the ulimit, RestartBridge is emitted and the error is
    dropped; if its cause is NotReachable, InternetOff is emitted, the
    error is dropped before the probe, and the probe is not consulted. *)
Theorem fd_probe_follows_offline_check env s more err s1 :
  processNextEventBody env s = (Ok (more, Some err), s1) ->
  on_isFdCloseToULimit env (length (calls s1)) = true ->
  processNextEvent env s =
  if isAPINotReachable (Cause (Some err)) then
    (Ok (more, None),
     setHasInternet false (setCalls (CallEmit InternetOffEvent "" :: calls s1) s1))
  else
    (Ok (more, None),
     setCalls (CallEmit RestartBridgeEvent "" :: CallIsFdCloseToULimit :: calls s1) s1).
Proof.
  intros Hbody Hfd. rewrite (processNextEvent_body _ _ _ _ _ Hbody).
  unfold bind. rewrite classify_result, Hfd.
  destruct (isAPINotReachable (Cause (Some err))); reflexivity.
Qed.

Lemma fd_probe_follows_offline_check_witness :
  processNextEventBody envTimeoutFd (loopAt "e1")
    = (Ok (false, Some (Wrap (ErrOther "timeout") "failed to get event")),
       setCalls [CallGetEvent "e1"] (loopAt "e1"))
  /\ on_isFdCloseToULimit envTimeoutFd 1 = true
  /\ processNextEvent envTimeoutFd (loopAt "e1") =
     (Ok (false, None),
      setCalls [CallEmit RestartBridgeEvent ""; CallIsFdCloseToULimit; CallGetEvent "e1"]
               (loopAt "e1")).
Proof.
  split; [reflexivity|]. split; [reflexivity|].
  apply (fd_probe_follows_offline_check envTimeoutFd (loopAt "e1") false
           (Wrap (ErrOther "timeout") "failed to get event")
           (setCalls [CallGetEvent "e1"] (loopAt "e1"))); reflexivity.
Defined.

(** C5 as stated fails: the remote is not reachable while descriptor
    usage is near the ulimit; the body returns an error, InternetOff is
    emitted, and RestartBridge is not. *)
Lemma fd_probe_not_reached_when_offline :
  fst (processNextEventBody envOfflineFd (loopAt "e1"))
    = Ok (false, Some (Wrap ErrAPINotReachable "failed to get event"))
  /\ on_isFdCloseToULimit envOfflineFd = (fun _ => true)
  /\ calls (snd (processNextEvent envOfflineFd (loopAt "e1")))
     = [CallEmit InternetOffEvent ""; CallGetEvent "e1"]
  /\ ~ In (CallEmit RestartBridgeEvent "")
          (calls (snd (processNextEvent envOfflineFd (loopAt "e1")))).
Proof.
  repeat split. simpl. intros [H|[H|[]]]; discriminate.
Qed.

(** ** Fatal errors (C7) *)

Lemma iteration_unfold env trigger s s1 :
  isStopSignal trigger = false ->
  startPrelude env s = (Ok tt, s1) ->
  iteration env trigger s = (r <- processNextEvent env ;; startFinish env trigger r) s1.
Proof.
  intros Ht Hp. destruct trigger; [discriminate| |];
    unfold iteration; now rewrite (bind_eq _ _ _ _ _ Hp).
Qed.

Lemma isFatal_cause err :
  isFatal err = true ->
  isAPINotReachable (Cause (Some err)) = false
  /\ isUpgradeApplication (Cause (Some err)) = false.
Proof.
  unfold isFatal, Cause. simpl. destruct (causeOf err); simpl; intros H;
    try discriminate; split; reflexivity.
Qed.

(** The deferred function keeps an error exactly when it is of a fatal
    kind and the descriptor probe is negative; it never calls Logout. *)
Lemma classify_keeps_fatal env err s :
  exists s', classify env (Some err) s
             = (Ok (if isFatal err && negb (on_isFdCloseToULimit env (length (calls s)))
                    then Some err else None), s')
             /\ logouts s' = logouts s.
Proof.
  rewrite classify_result.
  destruct (isFatal err) eqn:Hf.
  - destruct (isFatal_cause err Hf) as [H1 H2]. rewrite H1, H2.
    destruct (on_isFdCloseToULimit env _); simpl; eexists; split; reflexivity.
  - destruct (isAPINotReachable _); [simpl; eexists; split; reflexivity|].
    destruct (on_isFdCloseToULimit env _); [simpl; eexists; split; reflexivity|].
    destruct (isUpgradeApplication _); simpl; eexists; split; reflexivity.
Qed.

(** C7 as amended: let the body of processNextEvent return an error
    whose cause is InvalidToken or Unauthorized, with a negative
    descriptor probe.  The deferred function keeps the error, the loop
    returns, start has called Logout exactly once on the way out, on top
    of whatever processAddresses called before the body returned, and
    the runs that follow are not executed.  An error of any other cause
    is dropped without a Logout by start and the loop goes on.  Nothing
    is said about an error of a fatal cause met with a positive probe. *)
Theorem fatal_error_stops_loop_with_logout env trigger s s1 more err s2 :
  isStopSignal trigger = false ->
  startPrelude env s = (Ok tt, s1) ->
  processNextEventBody env s1 = (Ok (more, Some err), s2) ->
  isFatal err && on_isFdCloseToULimit env (length (calls s2)) = false ->
  exists s3 s',
    processNextEvent env s1 = (Ok (more, if isFatal err then Some err else None), s3)
    /\ logouts s3 = logouts s2
    /\ iteration env trigger s = (Ok (negb (isFatal err)), s')
    /\ logouts s' = (if isFatal err then S (logouts s2) else logouts s2)
    /\ forall rest,
         loopFor env (trigger :: rest) s
         = if isFatal err then (Ok false, s') else loopFor env rest s'.
Proof.
  intros Ht Hp Hb Hfd.
  destruct (classify_keeps_fatal env err s2) as [s3 [Hc Hl]].
  assert (Hk : isFatal err && negb (on_isFdCloseToULimit env (length (calls s2)))
               = isFatal err).
  { destruct (isFatal err); [|reflexivity].
    simpl in Hfd. now rewrite Hfd. }
  rewrite Hk in Hc. clear Hk Hfd.
  set (kept := isFatal err) in *.
  assert (Hn : processNextEvent env s1 = (Ok (more, if kept then Some err else None), s3)).
  { rewrite (processNextEvent_body _ _ _ _ _ Hb). now rewrite (bind_eq _ _ _ _ _ Hc). }
  assert (Hi : exists s', startFinish env trigger (more, if kept then Some err else None) s3
                          = (Ok (negb kept), s')
                          /\ logouts s' = (if kept then S (logouts s3) else logouts s3)).
  { unfold startFinish, userLogout, whenM.
    destruct trigger; [discriminate| |]; destruct kept, more; simpl; mstep;
      eexists; split; reflexivity. }
  destruct Hi as [s' [Hf Hl']].
  exists s3, s'. split; [exact Hn|]. split; [exact Hl|].
  assert (Hit : iteration env trigger s = (Ok (negb kept), s')).
  { rewrite (iteration_unfold _ _ _ _ Ht Hp). now rewrite (bind_eq _ _ _ _ _ Hn). }
  split; [exact Hit|]. split; [now rewrite Hl', Hl|].
  intros rest. simpl. rewrite (bind_eq _ _ _ _ _ Hit). now destruct kept.
Qed.

Lemma fatal_error_stops_loop_with_logout_witness :
  isStopSignal Tick = false
  /\ startPrelude envInvalidToken (loopAt "e5")
     = (Ok tt, polled "e5")
  /\ processNextEventBody envInvalidToken (polled "e5")
     = (Ok (false, Some (Wrap ErrInvalidToken "failed to get event")),
        setCalls [CallGetEvent "e5"; CallIsSyncFinished] (loopAt "e5"))
  /\ isFatal (Wrap ErrInvalidToken "failed to get event")
     && on_isFdCloseToULimit envInvalidToken 2 = false
  /\ exists s3 s',
       processNextEvent envInvalidToken (polled "e5")
       = (Ok (false, Some (Wrap ErrInvalidToken "failed to get event")), s3)
       /\ logouts s3 = 0%nat
       /\ iteration envInvalidToken Tick (loopAt "e5") = (Ok false, s')
       /\ logouts s' = 1%nat
       /\ forall rest,
            loopFor envInvalidToken (Tick :: rest) (loopAt "e5") = (Ok false, s').
Proof.
  split; [reflexivity|]. split; [reflexivity|]. split; [reflexivity|].
  split; [reflexivity|].
  apply (fatal_error_stops_loop_with_logout envInvalidToken Tick (loopAt "e5")
           (polled "e5") false
           (Wrap ErrInvalidToken "failed to get event")
           (setCalls [CallGetEvent "e5"; CallIsSyncFinished] (loopAt "e5")));
    reflexivity.
Defined.

(** C7 as stated fails when UpdateUser fails with Unauthorized in
    processAddresses (descriptor probe negative): the error is of a
    fatal kind and the loop returns, but Logout has been called there
    and is called again by start, twice for the one occurrence. *)
Lemma fatal_error_logged_out_twice :
  fst (processNextEventBody envUnauthorizedUpdate (polled "e5"))
  = Ok (false,
        Some (Wrap (Wrap (Wrap (ErrUnauthorized "401") "failed to update user")
                         "failed to process address events")
                   "failed to process event"))
  /\ on_isFdCloseToULimit envUnauthorizedUpdate
       (length (calls (snd (processNextEventBody envUnauthorizedUpdate (polled "e5")))))
     = false
  /\ logouts (snd (processNextEventBody envUnauthorizedUpdate (polled "e5"))) = 1%nat
  /\ fst (iteration envUnauthorizedUpdate Tick (loopAt "e5")) = Ok false
  /\ logouts (snd (iteration envUnauthorizedUpdate Tick (loopAt "e5"))) = 2%nat.
Proof. repeat split. Qed.

(** With descriptor usage near the ulimit the deferred function clears
    whatever error the body returned before it looks at the cause: an
    InvalidToken error from GetEvent is dropped, the loop goes on and
    Logout is not called. *)
Example invalid_token_dropped_when_fd_near_ulimit :
  fst (processNextEventBody envInvalidTokenFd (polled "e5"))
  = Ok (false, Some (Wrap ErrInvalidToken "failed to get event"))
  /\ fst (processNextEvent envInvalidTokenFd (polled "e5")) = Ok (false, None)
  /\ fst (iteration envInvalidTokenFd Tick (loopAt "e5")) = Ok true
  /\ logouts (snd (iteration envInvalidTokenFd Tick (loopAt "e5"))) = 0%nat.
Proof. repeat split. Qed.

(** ** The More flag and the cache write (C6, C8) *)

(** processNextEventBody when processEvent succeeds. *)
Lemma processNextEventBody_applied env s event s2 :
  on_GetEvent env (length (calls s)) (currentEventID s) = inl event ->
  processEvent env event (fetched s) = (Ok None, s2) ->
  processNextEventBody env s =
  if String.eqb (currentEventID s) (EventID event) then (Ok (More event =? 1, None), s2)
  else
    let s3 := setCalls (CallSetEventID (userID env) (EventID event) :: calls s2)
                       (setCurrentEventID (EventID event) s2) in
    match on_setEventID env (length (calls s2)) with
    | Some e => (Ok (false, Some (Wrap e "failed to save event ID to cache")), s3)
    | None => (Ok (More event =? 1, None),
               setCache (<[userID env := EventID event]> (cache s2)) s3)
    end.
Proof.
  intros Hget Hev. rewrite (processNextEventBody_fetch _ _ _ Hget).
  rewrite (bind_eq _ _ _ _ _ Hev). mstep.
  assert (Hcur : currentEventID s2 = currentEventID s).
  { pose proof (proj1 (processEvent_frame env event) (fetched s)) as F.
    rewrite Hev in F. destruct F as [F _], (fetched_frame s) as [G _].
    simpl in F. congruence. }
  rewrite Hcur. destruct (String.eqb (currentEventID s) (EventID event)); simpl; [reflexivity|].
  unfold cacheSetEventID. mstep. simpl.
  destruct (on_setEventID env (length (calls s2))); reflexivity.
Qed.

(** C6 as amended: for a fetched event with More = 1 whose appliers
    succeed, processNextEvent returns more = true and start executes
    [go loop.pollNow()] when the cache write succeeds or is not needed
    (the id is the current cursor); when the cache write fails,
    processNextEvent returns more = false and no poll is spawned. *)
Theorem more_flag_spawns_poll env trigger s s1 event s2 :
  isStopSignal trigger = false ->
  startPrelude env s = (Ok tt, s1) ->
  on_GetEvent env (length (calls s1)) (currentEventID s1) = inl event ->
  More event = 1 ->
  processEvent env event (fetched s1) = (Ok None, s2) ->
  match cursorWrite env s1 event s2 with
  | None =>
      exists s3 s',
        processNextEvent env s1 = (Ok (true, None), s3)
        /\ iteration env trigger s = (Ok true, s')
        /\ pollsSpawned s' = S (pollsSpawned s2)
        /\ hd_error (calls s') = Some CallGoPollNow
  | Some _ =>
      exists err s3 continue s',
        processNextEvent env s1 = (Ok (false, err), s3)
        /\ iteration env trigger s = (Ok continue, s')
        /\ pollsSpawned s' = pollsSpawned s2
  end.
Proof.
  intros Ht Hp Hget Hmore Hev.
  pose proof (processNextEventBody_applied env s1 event s2 Hget Hev) as Hb.
  unfold cursorWrite. rewrite Hmore in Hb. change (1 =? 1) with true in Hb.
  destruct (String.eqb (currentEventID s1) (EventID event)).
  - exists s2. 
    assert (Hn : processNextEvent env s1 = (Ok (true, None), s2)).
    { now rewrite (processNextEvent_body _ _ _ _ _ Hb). }
    rewrite (iteration_unfold _ _ _ _ Ht Hp), (bind_eq _ _ _ _ _ Hn).
    unfold startFinish. destruct trigger; [discriminate| |]; simpl; mstep;
      eexists; (split; [exact Hn|]); repeat split.
  - simpl in Hb. destruct (on_setEventID env (length (calls s2))) as [werr|].
    + destruct (classify_keeps_fatal env (Wrap werr "failed to save event ID to cache")
                  (setCalls (CallSetEventID (userID env) (EventID event) :: calls s2)
                            (setCurrentEventID (EventID event) s2))) as [s3 [Hc Hl]].
      rewrite classify_result in Hc.
      match type of Hc with _ = (Ok ?e, _) => set (kept := e) in * end.
      assert (Hn : processNextEvent env s1 = (Ok (false, kept), s3)).
      { rewrite (processNextEvent_body _ _ _ _ _ Hb). unfold bind.
        rewrite classify_result. now rewrite Hc. }
      assert (Hs3 : pollsSpawned s3 = pollsSpawned s2).
      { clear - Hc. 
        destruct (isAPINotReachable _); [now inversion Hc|].
        destruct (on_isFdCloseToULimit env _); [now inversion Hc|].
        destruct (isUpgradeApplication _); [now inversion Hc|].
        destruct (isFatal _); now inversion Hc. }
      exists kept, s3.
      rewrite (iteration_unfold _ _ _ _ Ht Hp), (bind_eq _ _ _ _ _ Hn).
      unfold startFinish, userLogout. 
      destruct trigger; [discriminate| |]; destruct kept; simpl; mstep;
        do 2 eexists; (split; [exact Hn|]); (split; [reflexivity|]); exact Hs3.
    + eexists.
      assert (Hn : processNextEvent env s1 = (Ok (true, None),
                 setCache (<[userID env := EventID event]> (cache s2))
                   (setCalls (CallSetEventID (userID env) (EventID event) :: calls s2)
                      (setCurrentEventID (EventID event) s2)))).
      { now rewrite (processNextEvent_body _ _ _ _ _ Hb). }
      rewrite (iteration_unfold _ _ _ _ Ht Hp), (bind_eq _ _ _ _ _ Hn).
      unfold startFinish. destruct trigger; [discriminate| |]; simpl; mstep;
        eexists; (split; [exact Hn|]); repeat split.
Qed.

Lemma more_flag_spawns_poll_witness :
  isStopSignal Tick = false
  /\ startPrelude envMore (loopAt "e1") = (Ok tt, polled "e1")
  /\ on_GetEvent envMore (length (calls (polled "e1"))) (currentEventID (polled "e1"))
     = inl moreEvent
  /\ More moreEvent = 1
  /\ processEvent envMore moreEvent (fetched (polled "e1")) = (Ok None, created "e1")
  /\ exists s3 s',
       processNextEvent envMore (polled "e1") = (Ok (true, None), s3)
       /\ iteration envMore Tick (loopAt "e1") = (Ok true, s')
       /\ pollsSpawned s' = S (pollsSpawned (created "e1"))
       /\ hd_error (calls s') = Some CallGoPollNow.
Proof.
  split; [reflexivity|]. split; [reflexivity|]. split; [reflexivity|].
  split; [reflexivity|]. split; [reflexivity|].
  apply (more_flag_spawns_poll envMore Tick (loopAt "e1") (polled "e1") moreEvent
           (created "e1")); reflexivity.
Defined.

(** C6 as stated fails: the event has More = 1 and is applied, the
    cache write fails; processNextEvent returns more = false and the
    iteration spawns no poll. *)
Lemma more_flag_lost_when_write_fails :
  on_GetEvent envMoreWriteFails (length (calls (polled "e1"))) (currentEventID (polled "e1"))
  = inl moreEvent
  /\ More moreEvent = 1
  /\ fst (processEvent envMoreWriteFails moreEvent (fetched (polled "e1"))) = Ok None
  /\ fst (processNextEvent envMoreWriteFails (polled "e1")) = Ok (false, None)
  /\ fst (iteration envMoreWriteFails Tick (loopAt "e1")) = Ok true
  /\ pollsSpawned (snd (iteration envMoreWriteFails Tick (loopAt "e1"))) = 0%nat.
Proof. repeat split. Qed.









(** ** Refresh events (C2) *)

Lemma processEvent_refresh env event s :
  (Z.land (Refresh event) EventRefreshMail =? 0) = false ->
  processEvent env event s = (Ok None, setCalls (CallTriggerSync :: calls s) s).
Proof. intros H. unfold processEvent. now rewrite H. Qed.

(** C2 as amended: for a fetched event with the MAIL bit set,
    processEvent calls triggerSync and nothing else (no applier runs),
    the body of processNextEvent makes no further call except the cache
    write of the id, attempted when the id differs from the cursor, and
    the in-memory cursor ends on the id of the event; the cache takes
    the id when that write is attempted and succeeds, and keeps its
    value otherwise. *)
Theorem refresh_event_triggers_sync_only env s event :
  on_GetEvent env (length (calls s)) (currentEventID s) = inl event ->
  (Z.land (Refresh event) EventRefreshMail =? 0) = false ->
  exists more err s',
    processEvent env event (fetched s)
      = (Ok None, setCalls (CallTriggerSync :: calls (fetched s)) (fetched s))
    /\ calls (snd (processNextEventBody env s))
       = (if String.eqb (currentEventID s) (EventID event) then []
          else [CallSetEventID (userID env) (EventID event)])
         ++ CallTriggerSync :: calls (fetched s)
    /\ imapUpdates (snd (processNextEventBody env s)) = imapUpdates s
    /\ processNextEvent env s = (Ok (more, err), s')
    /\ currentEventID s' = EventID event
    /\ cache s' =
       if String.eqb (currentEventID s) (EventID event) then cache s
       else match on_setEventID env (S (length (calls (fetched s)))) with
            | None => <[userID env := EventID event]> (cache s)
            | Some _ => cache s
            end.
Proof.
  intros Hget Href.
  pose proof (processEvent_refresh env event (fetched s) Href) as Hev.
  pose proof (processNextEventBody_applied env s event _ Hget Hev) as Hb.
  assert (Himap : imapUpdates (fetched s) = imapUpdates s)
    by (unfold fetched; destruct (hasInternet s); reflexivity).
  assert (Hcache : cache (fetched s) = cache s) by apply fetched_frame.
  destruct (processNextEventBody env s) as [[[more err]|] s1] eqn:Eb.
  2: { exfalso. revert Hb. destruct (String.eqb _ _); [discriminate|].
       simpl. destruct (on_setEventID env _); discriminate. }
  pose proof (proj1 (classify_frame env err) s1) as [F1 F2].
  assert (Hcl : exists e s', classify env err s1 = (Ok e, s')).
  { destruct err as [e|]; [|rewrite classify_nil; eauto].
    destruct (classify_keeps_fatal env e s1) as [s' [H _]]. eauto. }
  destruct Hcl as [e [s' Hcl]]. rewrite Hcl in F1, F2. simpl in F1, F2.
  exists more, e, s'. split; [exact Hev|].
  assert (Hn : processNextEvent env s = (Ok (more, e), s')).
  { unfold processNextEvent. rewrite (bind_eq _ _ _ _ _ Eb). simpl.
    now rewrite (bind_eq _ _ _ _ _ Hcl). }
  pose proof (fetched_frame s) as [Gcur Gcache].
  rewrite F1, F2. simpl snd. revert Hb.
  destruct (String.eqb (currentEventID s) (EventID event)) eqn:Heq; simpl.
  - intros Hb. inversion Hb. subst. simpl. apply String.eqb_eq in Heq.
    split; [reflexivity|]. split; [exact Himap|]. split; [exact Hn|].
    split; [congruence|exact Gcache].
  - destruct (on_setEventID env _); intros Hb; inversion Hb; subst; simpl;
      (split; [reflexivity|]); (split; [exact Himap|]); (split; [exact Hn|]);
      (split; [reflexivity|]); now rewrite Gcache.
Qed.

Lemma refresh_event_triggers_sync_only_witness :
  on_GetEvent envRefresh 0 "e4" = inl refreshEvent
  /\ (Z.land (Refresh refreshEvent) EventRefreshMail =? 0) = false
  /\ exists more err s',
       processEvent envRefresh refreshEvent (fetched (loopAt "e4"))
         = (Ok None, setCalls [CallTriggerSync; CallGetEvent "e4"] (loopAt "e4"))
       /\ calls (snd (processNextEventBody envRefresh (loopAt "e4")))
          = [CallSetEventID "user" "e5"; CallTriggerSync; CallGetEvent "e4"]
       /\ imapUpdates (snd (processNextEventBody envRefresh (loopAt "e4"))) = None
       /\ processNextEvent envRefresh (loopAt "e4") = (Ok (more, err), s')
       /\ currentEventID s' = "e5"
       /\ cache s' = <["user" := "e5"]> {[ "user" := "e4" ]}.
Proof.
  split; [reflexivity|]. split; [reflexivity|].
  apply (refresh_event_triggers_sync_only envRefresh (loopAt "e4") refreshEvent);
    reflexivity.
Defined.

(** C2 as stated fails: a refresh event is processed, the cache write
    of its id fails; the in-memory cursor has the id, the persisted
    cursor has not. *)
Lemma refresh_event_not_persisted_when_write_fails :
  on_GetEvent envRefreshWriteFails 0 "e4" = inl refreshEvent
  /\ (Z.land (Refresh refreshEvent) EventRefreshMail =? 0) = false
  /\ currentEventID (snd (processNextEvent envRefreshWriteFails (loopAt "e4"))) = "e5"
  /\ persisted envRefreshWriteFails (snd (processNextEvent envRefreshWriteFails (loopAt "e4")))
     = "e4"
  /\ persisted envRefreshWriteFails (snd (processNextEvent envRefreshWriteFails (loopAt "e4")))
     <> EventID refreshEvent.
Proof. repeat split. vm_compute. discriminate. Qed.

(** ** Skipped message deltas (C9, C10) *)

(** An update delta for a message that neither the store nor the remote
    knows: both look-ups are made, nothing is written, and the loop goes
    on to the next delta with [err] still set to ErrNoSuchAPIID. *)
Lemma stale_update_leaves_error env err delta updates rest s :
  (em_Action delta = EventUpdate \/ em_Action delta = EventUpdateFlags) ->
  em_Updated delta = Some updates ->
  on_getMessageFromDB env (length (calls s)) (em_ID delta) = inr ErrNoSuchAPIID ->
  on_fetchMessage env (S (length (calls s))) (em_ID delta) = inr ErrNoSuchAPIID ->
  processMessagesFrom env err (delta :: rest) s
  = processMessagesFrom env (Some ErrNoSuchAPIID) rest
      (setCalls (CallFetchMessage (em_ID delta)
                   :: CallGetMessageFromDB (em_ID delta) :: calls s) s).
Proof.
  intros Hact Hupd Hdb Hfetch. simpl.
  unfold getMessageFromDB, fetchMessage.
  destruct Hact as [-> | ->]; rewrite Hupd; mstep; rewrite Hdb; simpl; mstep;
    simpl; rewrite Hfetch; reflexivity.
Qed.

Lemma processMessagesFrom_nil_create env err delta rest s :
  em_Action delta = EventCreate ->
  em_Created delta = None ->
  processMessagesFrom env err (delta :: rest) s = processMessagesFrom env err rest s.
Proof. intros Hact Hnil. simpl. now rewrite Hact, Hnil. Qed.

(** Deltas that behave alike behave alike after any common prefix. *)
Lemma processMessagesFrom_prefix env pre l1 l2 :
  (forall err s, processMessagesFrom env err l1 s = processMessagesFrom env err l2 s) ->
  forall err s,
    processMessagesFrom env err (pre ++ l1) s = processMessagesFrom env err (pre ++ l2) s.
Proof.
  intros H. induction pre as [|a pre IH]; intros err s; simpl; [apply H|].
  unfold createOrUpdateMessageEvent, getMessageFromDB, fetchMessage, deleteMessageEvent.
  destruct (em_Action a).
  - mstep. destruct (on_deleteMessageEvent env _); [reflexivity|apply IH].
  - destruct (em_Created a) as [c|]; [|apply IH].
    mstep. destruct (on_createOrUpdateMessageEvent env _); [reflexivity|apply IH].
  - destruct (em_Updated a) as [u|]; [|apply IH].
    mstep. destruct (on_getMessageFromDB env _ _) as [m|e].
    + mstep. destruct (on_createOrUpdateMessageEvent env _); [reflexivity|apply IH].
    + destruct (isNoSuchAPIID e); [|reflexivity].
      mstep. destruct (on_fetchMessage env _ _) as [m|e'].
      * mstep. destruct (on_createOrUpdateMessageEvent env _); [reflexivity|apply IH].
      * destruct (isNoSuchAPIID e'); [apply IH|reflexivity].
  - destruct (em_Updated a) as [u|]; [|apply IH].
    mstep. destruct (on_getMessageFromDB env _ _) as [m|e].
    + mstep. destruct (on_createOrUpdateMessageEvent env _); [reflexivity|apply IH].
    + destruct (isNoSuchAPIID e); [|reflexivity].
      mstep. destruct (on_fetchMessage env _ _) as [m|e'].
      * mstep. destruct (on_createOrUpdateMessageEvent env _); [reflexivity|apply IH].
      * destruct (isNoSuchAPIID e'); [apply IH|reflexivity].
  - apply IH.
Qed.

Lemma ifNonEmpty_processMessages env messages s :
  ifNonEmpty messages (processMessages env) s = processMessages env messages s.
Proof. destruct messages; reflexivity. Qed.

(** processEvent depends on the message deltas only through what
    processMessages does with them. *)
Lemma processEvent_messages env event messages s :
  (forall s1, processMessages env (Messages event) s1 = processMessages env messages s1) ->
  processEvent env event s = processEvent env (withMessages messages event) s.
Proof.
  intros H. unfold processEvent. simpl.
  destruct (negb (Z.land (Refresh event) EventRefreshMail =? 0)); [reflexivity|].
  apply bind_ext. intros [e1|] s1; [reflexivity|].
  apply bind_ext. intros [e2|] s2; [reflexivity|].
  apply bind_head. now rewrite !ifNonEmpty_processMessages, H.
Qed.

(** C10: a create delta without a message is passed over: handling it
    makes no call and sets no error, the deltas after it are handled as
    if it were not there, and processMessages and processEvent give the
    result, state and log they give for the event without that delta. *)
Theorem nil_create_is_skipped env event pre delta post :
  Messages event = pre ++ delta :: post ->
  em_Action delta = EventCreate ->
  em_Created delta = None ->
  (forall s, processMessages env [delta] s = (Ok None, s))
  /\ (forall err s,
        processMessagesFrom env err (delta :: post) s = processMessagesFrom env err post s)
  /\ (forall s, processMessages env (Messages event) s = processMessages env (pre ++ post) s)
  /\ (forall s, processEvent env event s
                = processEvent env (withMessages (pre ++ post) event) s).
Proof.
  intros Hm Hact Hnil.
  assert (H1 : forall err s,
             processMessagesFrom env err (delta :: post) s = processMessagesFrom env err post s)
    by (intros; now apply processMessagesFrom_nil_create).
  assert (H2 : forall s, processMessages env (Messages event) s
                         = processMessages env (pre ++ post) s).
  { intros s. rewrite Hm. unfold processMessages.
    now apply processMessagesFrom_prefix. }
  split; [|split; [exact H1|split; [exact H2|]]].
  - intros s. unfold processMessages. now rewrite processMessagesFrom_nil_create.
  - intros s. now apply processEvent_messages.
Qed.

Lemma nil_create_is_skipped_witness :
  Messages createThenDelete = [created1] ++ nilCreate :: [deleted3]
  /\ em_Action nilCreate = EventCreate
  /\ em_Created nilCreate = None
  /\ (forall s, processMessages envMore [nilCreate] s = (Ok None, s))
  /\ (forall err s,
        processMessagesFrom envMore err (nilCreate :: [deleted3]) s
        = processMessagesFrom envMore err [deleted3] s)
  /\ (forall s, processMessages envMore (Messages createThenDelete) s
                = processMessages envMore ([created1] ++ [deleted3]) s)
  /\ (forall s, processEvent envMore createThenDelete s
                = processEvent envMore
                    (withMessages ([created1] ++ [deleted3]) createThenDelete) s).
Proof.
  split; [reflexivity|]. split; [reflexivity|]. split; [reflexivity|].
  apply (nil_create_is_skipped envMore createThenDelete [created1] nilCreate [deleted3]);
    reflexivity.
Defined.

Example nil_create_event_succeeds :
  processEvent envMore createThenDelete (loopAt "e1")
  = (Ok None, setCalls [CallDeleteMessageEvent "m3";
                        CallCreateOrUpdateMessageEvent message1] (loopAt "e1")).
Proof. reflexivity. Qed.

(** C9 at scenario S3: the update is for a message that the store and
    the remote both report as missing.  The delta is passed over and
    nothing is written, but processMessages returns ErrNoSuchAPIID, the
    value left in its result variable; processEvent fails, the cursor
    stays on e2, the error is dropped by the deferred function, and the
    following iterations fetch and fail on the same event again. *)
Theorem stale_update_blocks_cursor :
  processMessages envStale [staleUpdate] (fetched (loopAt "e2"))
  = (Ok (Some ErrNoSuchAPIID),
     setCalls [CallFetchMessage "mX"; CallGetMessageFromDB "mX"; CallGetEvent "e2"]
              (loopAt "e2"))
  /\ fst (processEvent envStale staleUpdateEvent (fetched (loopAt "e2")))
     = Ok (Some (Wrap ErrNoSuchAPIID "failed to process message events"))
  /\ fst (processNextEvent envStale (loopAt "e2")) = Ok (false, None)
  /\ currentEventID (snd (processNextEvent envStale (loopAt "e2"))) = "e2"
  /\ persisted envStale (snd (processNextEvent envStale (loopAt "e2"))) = "e2"
  /\ currentEventID (snd (loopFor envStale [Tick; Tick; Tick] (loopAt "e2"))) = "e2"
  /\ List.filter isGetEvent (calls (snd (loopFor envStale [Tick; Tick; Tick] (loopAt "e2"))))
     = [CallGetEvent "e2"; CallGetEvent "e2"; CallGetEvent "e2"].
Proof. repeat split. Qed.

(** ** The patch merge (C3, C4) *)

(** C3: the merge takes Time from the patch; takes Subject, Sender,
    ToList, CCList, BCCList, Unread and Flags from the patch when
    present and keeps the message's otherwise; a present LabelIDs
    becomes the label list; otherwise the list is the message's, in
    order, followed by new ids, which are without duplicates and are
    exactly the ids of LabelIDsAdded the message did not have, and from
    that list the ids of LabelIDsRemoved are filtered out, the others
    keeping their order. *)
Theorem updateMessage_merges_patch message updates :
  Time (updateMessage message updates) = upd_Time updates
  /\ Subject (updateMessage message updates)
     = match upd_Subject updates with Some v => v | None => Subject message end
  /\ Sender (updateMessage message updates)
     = match upd_Sender updates with Some v => Some v | None => Sender message end
  /\ ToList (updateMessage message updates)
     = match upd_ToList updates with Some v => v | None => ToList message end
  /\ CCList (updateMessage message updates)
     = match upd_CCList updates with Some v => v | None => CCList message end
  /\ BCCList (updateMessage message updates)
     = match upd_BCCList updates with Some v => v | None => BCCList message end
  /\ Unread (updateMessage message updates)
     = match upd_Unread updates with Some v => v | None => Unread message end
  /\ Flags (updateMessage message updates)
     = match upd_Flags updates with Some v => v | None => Flags message end
  /\ match upd_LabelIDs updates with
     | Some ids => LabelIDs (updateMessage message updates) = ids
     | None =>
         exists new,
           LabelIDs (updateMessage message updates)
           = labelDifference (LabelIDs message ++ new) (upd_LabelIDsRemoved updates)
           /\ List.NoDup new
           /\ forall x, In x new <->
                        In x (upd_LabelIDsAdded updates) /\ ~ In x (LabelIDs message)
     end.
Proof.
  repeat (split; [reflexivity|]).
  simpl. destruct (upd_LabelIDs updates); [reflexivity|].
  destruct (addLabels_spec (upd_LabelIDsAdded updates) (LabelIDs message))
    as [new [E [ND Hin]]].
  exists new. rewrite reconcileLabels_eq, E. auto.
Qed.

(** Scenario S4: labels L1, L2; L3 added, L1 removed. *)
Example sparse_label_patch :
  reconcileLabels ["L1"; "L2"] ["L3"] ["L1"] = ["L2"; "L3"].
Proof. reflexivity. Qed.

Example added_twice_appended_once :
  reconcileLabels ["L1"] ["L3"; "L2"; "L3"; "L1"] [] = ["L1"; "L3"; "L2"].
Proof. reflexivity. Qed.

(** C4: with no full LabelIDs in the patch, merging the patch a second
    time leaves the label list of the message as the first merge made
    it, element by element. *)
Theorem label_reconciliation_idempotent message updates :
  upd_LabelIDs updates = None ->
  LabelIDs (updateMessage (updateMessage message updates) updates)
  = LabelIDs (updateMessage message updates).
Proof.
  intros H. simpl. rewrite H. apply reconcileLabels_idem.
Qed.

Lemma label_reconciliation_idempotent_witness :
  upd_LabelIDs labelPatch = None
  /\ LabelIDs (updateMessage (updateMessage message1 labelPatch) labelPatch)
     = LabelIDs (updateMessage message1 labelPatch).
Proof.
  split; [reflexivity|].
  apply (label_reconciliation_idempotent message1 labelPatch). reflexivity.
Defined.

(** ** Further properties of the patch merge *)

Lemma reconcileLabels_In labels added removed x :
  In x (reconcileLabels labels added removed)
  <-> (In x labels \/ In x added) /\ ~ In x removed.
Proof.
  now rewrite reconcileLabels_eq, labelDifference_In, addLabels_union.
Qed.

Lemma addLabels_present labels added :
  (forall x, In x added -> In x labels) -> addLabels labels added = labels.
Proof.
  revert labels. induction added as [|a rest IH]; intros labels H; simpl; [reflexivity|].
  assert (Ha : hasLabel a labels = true) by (apply hasLabel_In, H; now left).
  rewrite Ha. apply IH. intros x Hx. apply H. now right.
Qed.

(** X1: merging the same patch a second time changes nothing, whatever
    the patch carries: every field of the message, not only the label
    list, is as the first merge left it. *)
Theorem updateMessage_idempotent message updates :
  updateMessage (updateMessage message updates) updates = updateMessage message updates.
Proof.
  unfold updateMessage. simpl.
  destruct (upd_Subject updates), (upd_Sender updates), (upd_ToList updates),
    (upd_CCList updates), (upd_BCCList updates), (upd_Unread updates),
    (upd_Flags updates), (upd_LabelIDs updates);
    f_equal; apply reconcileLabels_idem.
Qed.

(** X2: without a full LabelIDs in the patch, an id is among the merged
    labels exactly when the message had it or the patch adds it, and the
    patch does not remove it; so an id that is both added and removed is
    absent afterwards. *)
Theorem merged_labels_membership message updates x :
  upd_LabelIDs updates = None ->
  In x (LabelIDs (updateMessage message updates))
  <-> (In x (LabelIDs message) \/ In x (upd_LabelIDsAdded updates))
      /\ ~ In x (upd_LabelIDsRemoved updates).
Proof.
  intros H. simpl. rewrite H. apply reconcileLabels_In.
Qed.

Lemma merged_labels_membership_witness :
  upd_LabelIDs labelPatch = None
  /\ (In "L1" (LabelIDs (updateMessage message1 labelPatch))
      <-> (In "L1" (LabelIDs message1) \/ In "L1" (upd_LabelIDsAdded labelPatch))
          /\ ~ In "L1" (upd_LabelIDsRemoved labelPatch)).
Proof.
  split; [reflexivity|].
  apply (merged_labels_membership message1 labelPatch "L1"). reflexivity.
Defined.

(** X3: without a full LabelIDs in the patch, a message whose label
    list has no duplicates has none after the merge, even when the patch
    lists an id several times or lists ids the message already has. *)
Theorem merged_labels_NoDup message updates :
  upd_LabelIDs updates = None ->
  List.NoDup (LabelIDs message) ->
  List.NoDup (LabelIDs (updateMessage message updates)).
Proof.
  intros H ND. simpl. rewrite H, reconcileLabels_eq.
  unfold labelDifference. apply List.NoDup_filter.
  destruct (addLabels_spec (upd_LabelIDsAdded updates) (LabelIDs message))
    as [new [E [NDn Hin]]].
  rewrite E. apply List.NoDup_app; try assumption.
  intros a Ha Hn. apply Hin in Hn. tauto.
Qed.

Lemma merged_labels_NoDup_witness :
  upd_LabelIDs labelPatch = None
  /\ List.NoDup (LabelIDs message1)
  /\ List.NoDup (LabelIDs (updateMessage message1 labelPatch)).
Proof.
  assert (ND : List.NoDup (LabelIDs message1)).
  { simpl. apply List.NoDup_cons; [simpl; intros [H|[]]; discriminate|].
    apply List.NoDup_cons; [intros []|apply List.NoDup_nil]. }
  split; [reflexivity|]. split; [exact ND|].
  apply (merged_labels_NoDup message1 labelPatch); [reflexivity|exact ND].
Defined.

(** X4: a patch without a full LabelIDs that only adds ids the message
    already has and only removes ids it does not have leaves the label
    list as it is, order included. *)
Theorem replayed_label_patch_keeps_labels message updates :
  upd_LabelIDs updates = None ->
  forallb (fun a => hasLabel a (LabelIDs message)) (upd_LabelIDsAdded updates) = true ->
  forallb (fun r => negb (hasLabel r (LabelIDs message))) (upd_LabelIDsRemoved updates) = true ->
  LabelIDs (updateMessage message updates) = LabelIDs message.
Proof.
  intros H Hadd Hrem. simpl. rewrite H, reconcileLabels_eq.
  rewrite forallb_forall in Hadd, Hrem.
  rewrite addLabels_present.
  - apply labelDifference_id. intros x Hx Hr.
    specialize (Hrem x Hr). apply negb_true_iff, hasLabel_false in Hrem. tauto.
  - intros x Hx. apply hasLabel_In. now apply Hadd.
Qed.

Lemma replayed_label_patch_keeps_labels_witness :
  upd_LabelIDs replayedPatch = None
  /\ forallb (fun a => hasLabel a (LabelIDs message1)) (upd_LabelIDsAdded replayedPatch) = true
  /\ forallb (fun r => negb (hasLabel r (LabelIDs message1)))
       (upd_LabelIDsRemoved replayedPatch) = true
  /\ LabelIDs (updateMessage message1 replayedPatch) = LabelIDs message1.
Proof.
  split; [reflexivity|]. split; [reflexivity|]. split; [reflexivity|].
  apply (replayed_label_patch_keeps_labels message1 replayedPatch); reflexivity.
Defined.

(** ** What the appliers touch *)

Lemma appliesOnly_refl s : appliesOnly s s.
Proof. repeat split. now exists []. Qed.

Lemma appliesOnly_trans s1 s2 s3 :
  appliesOnly s1 s2 -> appliesOnly s2 s3 -> appliesOnly s1 s3.
Proof.
  intros (A1 & B1 & C1 & D1 & l1 & E1 & F1) (A2 & B2 & C2 & D2 & l2 & E2 & F2).
  repeat split; try congruence.
  exists (l2 ++ l1). rewrite E2, E1, app_assoc, forallb_app, F1, F2. now split.
Qed.

Lemma applies_call c : applierCall c = true -> keeps appliesOnly (call c).
Proof.
  intros H s. repeat split. exists [c]. simpl. now rewrite H.
Qed.

Lemma applies_imapSendUpdate env u : keeps appliesOnly (imapSendUpdate env u).
Proof.
  intros s. unfold imapSendUpdate.
  destruct (imapUpdates s); [|apply appliesOnly_refl].
  destruct (on_imapSendTimesOut env _); simpl; repeat split;
    now exists [CallImapSend u].
Qed.

Ltac applies_step :=
  first
    [ apply (keeps_ret appliesOnly appliesOnly_refl)
    | apply (keeps_panic appliesOnly appliesOnly_refl)
    | apply (keeps_gets appliesOnly appliesOnly_refl)
    | apply applies_call; reflexivity
    | apply applies_imapSendUpdate
    | assumption
    | apply (keeps_bind appliesOnly appliesOnly_trans); [| intros ?]
    | match goal with
      | |- keeps _ (match ?x with _ => _ end) => destruct x
      | |- keeps _ (if ?b then _ else _) => destruct b
      | |- keeps _ (whenM ?b _) => unfold whenM
      end ].

Ltac applies_tac := repeat applies_step.

Lemma applies_processAddressEvents env old l :
  keeps appliesOnly (processAddressEvents env old l).
Proof.
  induction l as [|a rest IH]; simpl; [applies_tac|].
  apply (keeps_bind appliesOnly appliesOnly_trans); [|intros _; exact IH].
  unfold processAddressEvent, emit. applies_tac.
Qed.

Lemma applies_processAddresses env l : keeps appliesOnly (processAddresses env l).
Proof.
  unfold processAddresses, apiAddresses, userLogout.
  apply (keeps_bind appliesOnly appliesOnly_trans); [applies_tac|]. intros old.
  apply (keeps_bind appliesOnly appliesOnly_trans); [applies_tac|]. intros t.
  destruct (on_UpdateUser env t); [applies_tac|].
  apply (keeps_bind appliesOnly appliesOnly_trans);
    [apply applies_processAddressEvents|]. intros _.
  applies_tac.
Qed.

Lemma applies_processLabels env l : keeps appliesOnly (processLabels env l).
Proof.
  induction l as [|a rest IH]; simpl; [applies_tac|].
  destruct (el_Action a); applies_tac.
Qed.

Lemma applies_processMessagesFrom env l :
  forall err, keeps appliesOnly (processMessagesFrom env err l).
Proof.
  induction l as [|a rest IH]; intros err; simpl; [applies_tac|].
  unfold createOrUpdateMessageEvent, getMessageFromDB, fetchMessage, deleteMessageEvent.
  destruct (em_Action a); applies_tac; apply IH.
Qed.

Lemma applies_processMessageCounts env l : keeps appliesOnly (processMessageCounts env l).
Proof. unfold processMessageCounts, triggerSync. applies_tac. Qed.

Lemma applies_imapNoticeAll env l n : keeps appliesOnly (imapNoticeAll env l n).
Proof.
  induction l as [|a rest IH]; simpl; [applies_tac|].
  unfold imapNotice. applies_tac.
Qed.

Lemma applies_processNotices env l : keeps appliesOnly (processNotices env l).
Proof.
  induction l as [|a rest IH]; simpl; [applies_tac|].
  apply (keeps_bind appliesOnly appliesOnly_trans); [applies_tac|]. intros t.
  apply (keeps_bind appliesOnly appliesOnly_trans); [apply applies_imapNoticeAll|].
  intros _. exact IH.
Qed.

Lemma applies_processEvent env ev : keeps appliesOnly (processEvent env ev).
Proof.
  unfold processEvent, ifNonEmpty, processMessages, triggerSync.
  destruct (negb _); [applies_tac|].
  apply (keeps_bind appliesOnly appliesOnly_trans);
    [destruct (Addresses ev); [applies_tac|apply applies_processAddresses]|].
  intros [e|]; [applies_tac|].
  apply (keeps_bind appliesOnly appliesOnly_trans);
    [destruct (Labels ev); [applies_tac|apply applies_processLabels]|].
  intros [e|]; [applies_tac|].
  apply (keeps_bind appliesOnly appliesOnly_trans);
    [destruct (Messages ev); [applies_tac|apply applies_processMessagesFrom]|].
  intros [e|]; [applies_tac|].
  apply (keeps_bind appliesOnly appliesOnly_trans);
    [destruct (MessageCounts ev); [applies_tac|apply applies_processMessageCounts]|].
  intros [e|]; [applies_tac|].
  apply (keeps_bind appliesOnly appliesOnly_trans); [|intros _; applies_tac].
  destruct (Notices ev); [applies_tac|apply applies_processNotices].
Qed.

(** X5: whatever the event and the answers of the collaborators,
    processEvent leaves the in-memory cursor, the running flag, the
    connectivity flag and the cursor cache as they are, and every call it
    makes is a call of an applier: it never fetches an event, never
    writes the cursor, never probes the descriptors, never emits a
    connectivity, restart or upgrade event and never spawns a poll. *)
Theorem processEvent_footprint env event s :
  currentEventID (snd (processEvent env event s)) = currentEventID s
  /\ isRunning (snd (processEvent env event s)) = isRunning s
  /\ hasInternet (snd (processEvent env event s)) = hasInternet s
  /\ cache (snd (processEvent env event s)) = cache s
  /\ exists l, calls (snd (processEvent env event s)) = l ++ calls s
               /\ forallb applierCall l = true.
Proof. exact (applies_processEvent env event s). Qed.

(** ** The connectivity flag and its emissions *)

Lemma quiet_refl s : quiet s s.
Proof. split; [reflexivity|]. now exists []. Qed.

Lemma quiet_trans s1 s2 s3 : quiet s1 s2 -> quiet s2 s3 -> quiet s1 s3.
Proof.
  intros (A1 & l1 & E1 & F1) (A2 & l2 & E2 & F2). split; [congruence|].
  exists (l2 ++ l1). rewrite E2, E1, app_assoc, forallb_app, F1, F2. now split.
Qed.

Lemma quiet_call c s :
  connectivity c = None -> quiet s (setCalls (c :: calls s) s).
Proof. intros H. split; [reflexivity|]. exists [c]. simpl. now rewrite H. Qed.

Lemma applierCall_quiet c : applierCall c = true -> connectivity c = None.
Proof. destruct c; try discriminate; try reflexivity. destruct name; now try discriminate. Qed.

Lemma appliesOnly_quiet s s' : appliesOnly s s' -> quiet s s'.
Proof.
  intros (_ & _ & H & _ & l & E & F). split; [exact H|]. exists l. split; [exact E|].
  rewrite forallb_forall in *. intros c Hc. now rewrite (applierCall_quiet c (F c Hc)).
Qed.

Lemma quiet_log l log :
  forallb (fun c => match connectivity c with None => true | _ => false end) l = true ->
  lastConnectivity (l ++ log) = lastConnectivity log
  /\ onAfterOff (l ++ log) = onAfterOff log.
Proof.
  induction l as [|c l IH]; simpl; [tauto|].
  destruct (connectivity c); [discriminate|]. exact IH.
Qed.

Lemma connected_quiet s s' : connected s -> quiet s s' -> connected s'.
Proof.
  intros [H1 H2] (A & l & E & F). destruct (quiet_log l (calls s) F) as [L1 L2].
  unfold connected, onlineByLog in *. now rewrite E, L1, L2, A.
Qed.

Lemma connected_fetched s : connected s -> connected (fetched s).
Proof.
  intros [H1 H2]. unfold fetched, connected, onlineByLog in *.
  destruct (hasInternet s) eqn:Hi; simpl; rewrite ?Hi.
  - now split.
  - destruct (lastConnectivity (calls s)) as [[]|]; try discriminate. now split.
Qed.

Lemma connected_classify env err s :
  connected s -> connected (snd (classify env err s)).
Proof.
  intros H. destruct err as [e|]; [|exact H].
  rewrite classify_result. cbv zeta.
  assert (Q : quiet s (setCalls (CallIsFdCloseToULimit :: calls s) s))
    by now apply quiet_call.
  assert (Q2 : forall name, connectivity (CallEmit name "") = None ->
             quiet s (setCalls (CallEmit name "" :: CallIsFdCloseToULimit :: calls s)
                               (setCalls (CallIsFdCloseToULimit :: calls s) s))).
  { intros name Hn. eapply quiet_trans; [exact Q|].
    apply (quiet_call (CallEmit name "") (setCalls (CallIsFdCloseToULimit :: calls s) s) Hn). }
  destruct (isAPINotReachable (Cause (Some e)));
    [destruct H as [_ H2]; split; [reflexivity|exact H2]|].
  destruct (on_isFdCloseToULimit env (length (calls s)));
    [exact (connected_quiet _ _ H (Q2 RestartBridgeEvent eq_refl))|].
  destruct (isUpgradeApplication (Cause (Some e)));
    [exact (connected_quiet _ _ H (Q2 UpgradeApplicationEvent eq_refl))|].
  destruct (isFatal e); exact (connected_quiet _ _ H Q).
Qed.

Lemma quiet_cacheSetEventID env uid id s : quiet s (snd (cacheSetEventID env uid id s)).
Proof.
  unfold cacheSetEventID. mstep.
  destruct (on_setEventID env _); mstep; simpl;
    (split; [reflexivity|]); now exists [CallSetEventID uid id].
Qed.

Lemma connected_processNextEvent env s :
  connected s -> connected (snd (processNextEvent env s)).
Proof.
  intros H.
  assert (Hb : connected (snd (processNextEventBody env s))).
  { destruct (on_GetEvent env (length (calls s)) (currentEventID s)) as [ev|e] eqn:Hget.
    - rewrite (processNextEventBody_fetch _ _ _ Hget), snd_bind.
      pose proof (appliesOnly_quiet _ _ (applies_processEvent env ev (fetched s))) as Q.
      pose proof (connected_quiet _ _ (connected_fetched s H) Q) as H3.
      destruct (processEvent env ev (fetched s)) as [[[e|]|] s3]; simpl snd in *;
        try exact H3.
      mstep. destruct (negb _); [|exact H3].
      mstep. rewrite snd_bind.
      pose proof (quiet_cacheSetEventID env (userID env) (EventID ev)
                    (setCurrentEventID (EventID ev) s3)) as Q2.
      assert (H4 : connected (setCurrentEventID (EventID ev) s3)) by exact H3.
      pose proof (connected_quiet _ _ H4 Q2) as H5.
      destruct (cacheSetEventID env (userID env) (EventID ev)
                  (setCurrentEventID (EventID ev) s3)) as [[[e|]|] s4];
        exact H5.
    - rewrite (processNextEventBody_offline _ _ _ Hget).
      eapply connected_quiet; [exact H|]. now apply quiet_call. }
  unfold processNextEvent. rewrite snd_bind.
  destruct (processNextEventBody env s) as [[r|] s1]; simpl snd in *; [|exact Hb].
  rewrite snd_bind.
  pose proof (connected_classify env (snd r) s1 Hb) as Hc.
  destruct (classify env (snd r) s1) as [[e|] s2]; exact Hc.
Qed.

Lemma quiet_startPrelude env s : quiet s (snd (startPrelude env s)).
Proof.
  unfold startPrelude, isBeforeFirstStart. mstep.
  assert (Hsync : forall s0, quiet s0
            (snd ((t <- call CallIsSyncFinished ;;
                   whenM (negb (on_isSyncFinished env t)) triggerSync) s0))).
  { intros s0. mstep. unfold whenM, triggerSync.
    destruct (negb _); mstep; simpl; (split; [reflexivity|]);
      [now exists [CallTriggerSync; CallIsSyncFinished] | now exists [CallIsSyncFinished]]. }
  destruct (String.eqb (currentEventID s) ""); simpl whenM; [|apply Hsync].
  mstep. rewrite snd_bind.
  assert (Hf : quiet s (snd (setFirstEventID env s))).
  { unfold setFirstEventID, apiGetEvent. mstep.
    destruct (on_GetEvent env _ _) as [ev|e]; mstep.
    - eapply quiet_trans; [apply (quiet_call (CallGetEvent "") s); reflexivity|].
      apply (quiet_cacheSetEventID env (userID env) (EventID ev)
               (setCurrentEventID (EventID ev) (setCalls (CallGetEvent "" :: calls s) s))).
    - now apply quiet_call. }
  destruct (setFirstEventID env s) as [[r|] s1]; simpl snd in *; [|exact Hf].
  eapply quiet_trans; [exact Hf|]. mstep. apply Hsync.
Qed.

Lemma quiet_startFinish env trigger r s : quiet s (snd (startFinish env trigger r s)).
Proof.
  unfold startFinish, userLogout, whenM.
  destruct trigger, (snd r), (fst r); mstep; simpl; (split; [reflexivity|]);
    first [ now exists [] | now exists [CallLogout] | now exists [CallGoPollNow]
          | now exists [CallLogout; CallEventProcessed]
          | now exists [CallGoPollNow; CallEventProcessed]
          | now exists [CallEventProcessed] ].
Qed.

Lemma connected_iteration env trigger s :
  connected s -> connected (snd (iteration env trigger s)).
Proof.
  intros H. destruct trigger.
  - simpl. eapply connected_quiet; [exact H|]. now apply quiet_call.
  - unfold iteration. rewrite snd_bind.
    pose proof (connected_quiet _ _ H (quiet_startPrelude env s)) as H1.
    destruct (startPrelude env s) as [[[]|] s1]; simpl snd in *; [|exact H1].
    rewrite snd_bind.
    pose proof (connected_processNextEvent env s1 H1) as H2.
    destruct (processNextEvent env s1) as [[r|] s2]; simpl snd in *; [|exact H2].
    exact (connected_quiet _ _ H2 (quiet_startFinish env PollRequest r s2)).
  - unfold iteration. rewrite snd_bind.
    pose proof (connected_quiet _ _ H (quiet_startPrelude env s)) as H1.
    destruct (startPrelude env s) as [[[]|] s1]; simpl snd in *; [|exact H1].
    rewrite snd_bind.
    pose proof (connected_processNextEvent env s1 H1) as H2.
    destruct (processNextEvent env s1) as [[r|] s2]; simpl snd in *; [|exact H2].
    exact (connected_quiet _ _ H2 (quiet_startFinish env Tick r s2)).
Qed.

Lemma connected_loopFor env triggers : forall s,
  connected s -> connected (snd (loopFor env triggers s)).
Proof.
  induction triggers as [|t rest IH]; intros s H; simpl; [exact H|].
  rewrite snd_bind. pose proof (connected_iteration env t s H) as H1.
  destruct (iteration env t s) as [[[]|] s1]; simpl snd in *; auto.
Qed.

(** X6: along every run of start from a new event loop, the flag
    hasInternet is false exactly when the last connectivity event
    emitted is InternetOff, and every InternetOn emitted answers an
    InternetOff: InternetOn is never the first connectivity event and
    never follows another InternetOn. *)
Theorem connectivity_flag_follows_emissions env c imap triggers :
  hasInternet (snd (start env triggers (newEventLoop env c imap)))
  = onlineByLog (calls (snd (start env triggers (newEventLoop env c imap))))
  /\ onAfterOff (calls (snd (start env triggers (newEventLoop env c imap)))) = true.
Proof.
  unfold start. simpl isRunning. cbv iota.
  fold (started (newEventLoop env c imap)).
  assert (H0 : connected (started (newEventLoop env c imap))) by (split; reflexivity).
  pose proof (connected_loopFor env triggers _ H0) as H.
  destruct (loopFor env triggers (started (newEventLoop env c imap))) as [[[]|] s1];
    exact H.
Qed.

(** Scenario S1: offline at the first tick, back at the second: one
    InternetOff, then one InternetOn, and the cursor on the head event. *)
Example offline_then_online :
  List.filter (fun c => match connectivity c with Some _ => true | None => false end)
    (calls (snd (start envFlaky [Tick; Tick] (newEventLoop envFlaky ∅ None))))
  = [CallEmit InternetOnEvent ""; CallEmit InternetOffEvent ""]
  /\ currentEventID (snd (start envFlaky [Tick] (newEventLoop envFlaky ∅ None))) = ""
  /\ currentEventID (snd (start envFlaky [Tick; Tick] (newEventLoop envFlaky ∅ None))) = "e0"
  /\ persisted envFlaky (snd (start envFlaky [Tick; Tick] (newEventLoop envFlaky ∅ None)))
     = "e0".
Proof. repeat split. Qed.

(** ** Relations kept by the whole loop *)

Section LoopFrame.

Variable env : Env.
Variable R : State -> State -> Prop.
Hypothesis R_refl : forall s, R s s.
Hypothesis R_trans : forall s1 s2 s3, R s1 s2 -> R s2 s3 -> R s1 s3.
Hypothesis R_call : forall c s, R s (setCalls (c :: calls s) s).
Hypothesis R_internet : forall b s, R s (setHasInternet b s).
Hypothesis R_imap : forall ch s, R s (setImapUpdates ch s).
Hypothesis R_cursor : forall id s, R s (setCurrentEventID id s).
Hypothesis R_own : forall id s, R s (setCache (<[userID env := id]> (cache s)) s).

Lemma loop_setCursor id : keeps R (modify (setCurrentEventID id)).
Proof. intros s. apply R_cursor. Qed.

Ltac loop_step :=
  first
    [ apply (keeps_ret R R_refl) | apply (keeps_gets R R_refl)
    | apply (keeps_call R R_call) | apply (keeps_setHasInternet R R_internet)
    | apply loop_setCursor
    | apply (keeps_processEvent R R_refl R_trans R_call R_imap)
    | apply (keeps_classify R R_refl R_trans R_call R_internet)
    | assumption
    | apply (keeps_bind R R_trans); [| intros ?]
    | match goal with
      | |- keeps _ (match ?x with _ => _ end) => destruct x
      | |- keeps _ (if ?b then _ else _) => destruct b
      | |- keeps _ (whenM ?b _) => unfold whenM
      end ].

Lemma loop_cacheSetEventID id : keeps R (cacheSetEventID env (userID env) id).
Proof.
  unfold cacheSetEventID. apply (keeps_bind R R_trans); [apply (keeps_call R R_call)|].
  intros t. destruct (on_setEventID env t); [apply (keeps_ret R R_refl)|].
  apply (keeps_bind R R_trans); [|intros _; apply (keeps_ret R R_refl)].
  intros s. apply R_own.
Qed.

Lemma loop_setFirstEventID : keeps R (setFirstEventID env).
Proof.
  unfold setFirstEventID, apiGetEvent.
  repeat first [apply loop_cacheSetEventID | loop_step].
Qed.

Lemma loop_processNextEvent : keeps R (processNextEvent env).
Proof.
  unfold processNextEvent, processNextEventBody, apiGetEvent, emit.
  repeat first [apply loop_cacheSetEventID | loop_step].
Qed.

Lemma loop_iteration trigger : keeps R (iteration env trigger).
Proof.
  unfold iteration, startPrelude, startFinish, isBeforeFirstStart, userLogout, triggerSync.
  destruct trigger;
    repeat first [apply loop_setFirstEventID | apply loop_processNextEvent | loop_step].
Qed.

Lemma loop_loopFor triggers : keeps R (loopFor env triggers).
Proof.
  induction triggers as [|t rest IH]; simpl; [apply (keeps_ret R R_refl)|].
  apply (keeps_bind R R_trans); [apply loop_iteration|].
  intros []; [exact IH|apply (keeps_ret R R_refl)].
Qed.

End LoopFrame.

(** ** The running flag *)

Lemma loopFor_sameRunning env triggers s :
  isRunning (snd (loopFor env triggers s)) = isRunning s.
Proof.
  apply (loop_loopFor env sameRunning); unfold sameRunning; simpl; intros;
    try reflexivity. congruence.
Qed.

(** X7: started on a loop that is not running, start leaves IsRunning
    true exactly when the for loop is still waiting for its next select
    outcome; once the loop has returned, on a stop signal or a kept
    error, or has panicked, IsRunning is false.  Nothing inside an
    iteration changes the flag. *)
Theorem IsRunning_while_loop_waits env triggers s :
  isRunning s = false ->
  fst (IsRunning (snd (start env triggers s)))
  = Ok (match fst (loopFor env triggers (started s)) with
        | Ok true => true
        | _ => false
        end).
Proof.
  intros H. unfold start, IsRunning, gets. rewrite H. fold (started s). simpl fst.
  pose proof (loopFor_sameRunning env triggers (started s)) as Hk.
  destruct (loopFor env triggers (started s)) as [[[]|] s1]; simpl in *;
    congruence.
Qed.

Lemma IsRunning_while_loop_waits_witness :
  isRunning (newEventLoop envStream ∅ None) = false
  /\ fst (IsRunning (snd (start envStream [Tick; Tick] (newEventLoop envStream ∅ None))))
     = Ok true.
Proof.
  split; [reflexivity|].
  exact (IsRunning_while_loop_waits envStream [Tick; Tick]
           (newEventLoop envStream ∅ None) eq_refl).
Defined.

Lemma loopFor_stops env pre : forall s,
  match fst (loopFor env (pre ++ [StopSignal]) s) with
  | Ok true => False
  | _ => True
  end.
Proof.
  induction pre as [|t rest IH]; intros s.
  - exact I.
  - simpl. unfold bind at 1.
    destruct (iteration env t s) as [[[]|] s1]; simpl; [apply IH|exact I|exact I].
Qed.

(** X8: the loop returns at the first stop signal it receives: the
    select outcomes after it are not served, the run is the run up to
    and including the stop signal, and IsRunning is false afterwards. *)
Theorem stop_signal_ends_run env pre rest s :
  isRunning s = false ->
  start env (pre ++ StopSignal :: rest) s = start env (pre ++ [StopSignal]) s
  /\ isRunning (snd (start env (pre ++ StopSignal :: rest) s)) = false.
Proof.
  intros H.
  assert (E : loopFor env (pre ++ StopSignal :: rest) (started s)
              = loopFor env (pre ++ [StopSignal]) (started s)).
  { pose proof (loopFor_app env pre (StopSignal :: rest) (started s)) as H1.
    pose proof (loopFor_app env pre [StopSignal] (started s)) as H2.
    destruct (loopFor env pre (started s)) as [[[]|] s1];
      destruct H1 as [H1 _], H2 as [H2 _]; rewrite H1, H2; reflexivity. }
  assert (E' : start env (pre ++ StopSignal :: rest) s = start env (pre ++ [StopSignal]) s).
  { unfold start. rewrite H. fold (started s). now rewrite E. }
  split; [exact E'|]. rewrite E'.
  unfold start. rewrite H. fold (started s).
  pose proof (loopFor_stops env pre (started s)) as Hs.
  destruct (loopFor env (pre ++ [StopSignal]) (started s)) as [[[]|] s1];
    simpl in *; [contradiction|reflexivity|reflexivity].
Qed.

Lemma stop_signal_ends_run_witness :
  isRunning (newEventLoop envStream ∅ None) = false
  /\ start envStream ([Tick] ++ StopSignal :: [Tick; PollRequest])
       (newEventLoop envStream ∅ None)
     = start envStream ([Tick] ++ [StopSignal]) (newEventLoop envStream ∅ None)
  /\ isRunning (snd (start envStream ([Tick] ++ StopSignal :: [Tick; PollRequest])
                       (newEventLoop envStream ∅ None))) = false.
Proof.
  split; [reflexivity|].
  apply (stop_signal_ends_run envStream [Tick] [Tick; PollRequest]
           (newEventLoop envStream ∅ None)).
  reflexivity.
Defined.

(** ** The cache entries of other users *)

(** X9: a run of start writes the cursor cache only under the id of its
    own user: the entry of every other user is after the run what it was
    before. *)
Theorem other_users_cursor_untouched env triggers s uid :
  String.eqb uid (userID env) = false ->
  cache (snd (start env triggers s)) !! uid = cache s !! uid.
Proof.
  intros Hne. apply String.eqb_neq in Hne.
  unfold start. destruct (isRunning s); [reflexivity|]. fold (started s).
  assert (Hk : sameEntry uid (started s) (snd (loopFor env triggers (started s)))).
  { apply (loop_loopFor env (sameEntry uid)); unfold sameEntry; simpl; intros;
      try reflexivity; [congruence|].
    apply lookup_insert_ne. congruence. }
  unfold sameEntry in Hk.
  destruct (loopFor env triggers (started s)) as [[[]|] s1]; exact Hk.
Qed.

Lemma other_users_cursor_untouched_witness :
  String.eqb "other" (userID envStream) = false
  /\ cache (snd (start envStream [Tick; Tick]
                   (newEventLoop envStream {[ "other" := "e9" ]} None))) !! "other"
     = Some "e9".
Proof.
  split; [reflexivity|].
  exact (other_users_cursor_untouched envStream [Tick; Tick]
           (newEventLoop envStream {[ "other" := "e9" ]} None) "other" eq_refl).
Defined.

(** ** What processNextEvent returns *)

Lemma processNextEvent_unfold env s :
  processNextEvent env s =
  match processNextEventBody env s with
  | (Ok (more, err), s1) =>
      match classify env err s1 with
      | (Ok e, s2) => (Ok (more, e), s2)
      | (Panicked, s2) => (Panicked, s2)
      end
  | (Panicked, s1) => (Panicked, s1)
  end.
Proof.
  unfold processNextEvent, bind.
  destruct (processNextEventBody env s) as [[[more err]|] s1]; [|reflexivity].
  simpl. destruct (classify env err s1) as [[e|] s2]; reflexivity.
Qed.

(** The deferred function returns; what it returns is nil or the error
    it was given, and then that error is of a fatal kind. *)
Lemma classify_returns env err s :
  exists e s', classify env err s = (Ok e, s')
               /\ match e with Some x => err = Some x /\ isFatal x = true | None => True end.
Proof.
  destruct err as [w|]; [|exists None, s; split; [reflexivity|exact I]].
  destruct (classify_keeps_fatal env w s) as [s' [Hc _]]. rewrite Hc.
  eexists _, s'. split; [reflexivity|].
  destruct (isFatal w) eqn:Hf; simpl; [|exact I].
  destruct (on_isFdCloseToULimit env _); simpl; [exact I|now split].
Qed.

(** X10: processNextEvent returns more = true only without an error,
    and only after fetching an event with More = 1 that processEvent
    applied without error; an error it returns is of a fatal kind
    (cause InvalidToken or Unauthorized) and comes with more = false; it
    panics only when processEvent does. *)
Theorem processNextEvent_result_shape env s :
  match fst (processNextEvent env s) with
  | Ok (true, Some _) => False
  | Ok (true, None) =>
      exists event,
        on_GetEvent env (length (calls s)) (currentEventID s) = inl event
        /\ More event = 1
        /\ fst (processEvent env event (fetched s)) = Ok None
  | Ok (false, Some e) => isFatal e = true
  | Ok (false, None) => True
  | Panicked =>
      exists event,
        on_GetEvent env (length (calls s)) (currentEventID s) = inl event
        /\ fst (processEvent env event (fetched s)) = Panicked
  end.
Proof.
  rewrite processNextEvent_unfold.
  assert (Hfail : forall w s1,
             match fst (match classify env (Some w) s1 with
                        | (Ok e, s2) => (Ok (false, e), s2)
                        | (Panicked, s2) => (Panicked, s2)
                        end) with
             | Ok (true, Some _) => False
             | Ok (true, None) =>
                 exists event,
                   on_GetEvent env (length (calls s)) (currentEventID s) = inl event
                   /\ More event = 1
                   /\ fst (processEvent env event (fetched s)) = Ok None
             | Ok (false, Some e) => isFatal e = true
             | Ok (false, None) => True
             | Panicked =>
                 exists event,
                   on_GetEvent env (length (calls s)) (currentEventID s) = inl event
                   /\ fst (processEvent env event (fetched s)) = Panicked
             end).
  { intros w s1. destruct (classify_returns env (Some w) s1) as [e [s2 [Hc He]]].
    rewrite Hc. simpl. destruct e as [x|]; [apply He|exact I]. }
  destruct (on_GetEvent env (length (calls s)) (currentEventID s)) as [ev|e0] eqn:Hget.
  2: { rewrite (processNextEventBody_offline _ _ _ Hget). apply Hfail. }
  rewrite (processNextEventBody_fetch _ _ _ Hget). unfold bind at 1.
  destruct (processEvent env ev (fetched s)) as [[[e1|]|] s3] eqn:Hev.
  - mstep. apply Hfail.
  - mstep. destruct (negb _).
    + unfold cacheSetEventID. mstep.
      destruct (on_setEventID env _) as [w|]; mstep; [apply Hfail|].
      unfold ret. cbv iota beta. rewrite classify_nil. simpl fst.
      destruct (More ev =? 1) eqn:Hm; [|exact I].
      exists ev. apply Z.eqb_eq in Hm. now rewrite Hev.
    + unfold ret. cbv iota beta. rewrite classify_nil. simpl fst.
      destruct (More ev =? 1) eqn:Hm; [|exact I].
      exists ev. apply Z.eqb_eq in Hm. now rewrite Hev.
  - simpl. exists ev. now rewrite Hev.
Qed.

(** ** A cold start without the remote *)

(** X11: when the cursor is empty and the remote answers GetEvent("")
    with NotReachable, an iteration asks twice (setFirstEventID, then
    processNextEvent), emits InternetOff once, does not consult the
    descriptor probe, leaves the cursor empty and the cache as it was,
    marks the loop offline and goes on to the next select. *)
Theorem cold_start_offline env trigger s :
  isStopSignal trigger = false ->
  String.eqb (currentEventID s) "" = true ->
  (forall t, on_GetEvent env t "" = inr ErrAPINotReachable) ->
  iteration env trigger s =
  (Ok true,
   setHasInternet false
     (setCalls (processedCalls trigger
                  ++ [CallEmit InternetOffEvent ""; CallGetEvent ""]
                  ++ syncCalls env (setCalls (CallGetEvent "" :: calls s) s)
                  ++ CallGetEvent "" :: calls s) s)).
Proof.
  intros Ht Hcur Hoff.
  assert (Hc : currentEventID s = "") by now apply String.eqb_eq.
  assert (Hp : startPrelude env s
               = (Ok tt, setCalls (syncCalls env (setCalls (CallGetEvent "" :: calls s) s)
                                     ++ CallGetEvent "" :: calls s) s)).
  { unfold startPrelude, isBeforeFirstStart, setFirstEventID, apiGetEvent, syncCalls.
    mstep. rewrite Hcur. simpl whenM. mstep. rewrite Hoff. mstep.
    unfold whenM, triggerSync.
    change (length (calls (setCalls (CallGetEvent "" :: calls s) s)))
      with (S (length (calls s))).
    destruct (on_isSyncFinished env (S (length (calls s)))); reflexivity. }
  rewrite (iteration_unfold _ _ _ _ Ht Hp).
  set (s1 := setCalls (syncCalls env (setCalls (CallGetEvent "" :: calls s) s)
                         ++ CallGetEvent "" :: calls s) s).
  assert (Hn : processNextEvent env s1
               = (Ok (false, None),
                  setHasInternet false
                    (setCalls ([CallEmit InternetOffEvent ""; CallGetEvent ""] ++ calls s1) s1))).
  { assert (Hg : on_GetEvent env (length (calls s1)) (currentEventID s1)
                 = inr ErrAPINotReachable) by (simpl; rewrite Hc; apply Hoff).
    rewrite processNextEvent_unfold, (processNextEventBody_offline _ _ _ Hg).
    rewrite classify_result. simpl. now rewrite Hc. }
  rewrite (bind_eq _ _ _ _ _ Hn).
  unfold startFinish, processedCalls. destruct trigger; [discriminate| |]; reflexivity.
Qed.

Lemma cold_start_offline_witness :
  isStopSignal Tick = false
  /\ String.eqb (currentEventID (newEventLoop envOffline ∅ None)) "" = true
  /\ (forall t, on_GetEvent envOffline t "" = inr ErrAPINotReachable)
  /\ iteration envOffline Tick (newEventLoop envOffline ∅ None)
     = (Ok true,
        setHasInternet false
          (setCalls [CallEmit InternetOffEvent ""; CallGetEvent "";
                     CallIsSyncFinished; CallGetEvent ""]
                    (newEventLoop envOffline ∅ None))).
Proof.
  split; [reflexivity|]. split; [reflexivity|]. split; [reflexivity|].
  exact (cold_start_offline envOffline Tick (newEventLoop envOffline ∅ None)
           eq_refl eq_refl (fun _ => eq_refl)).
Defined.

(** ** A failing UpdateUser *)

(** X12: when the fetched event carries address deltas and UpdateUser
    fails, the user is logged out and nothing else happens: no address
    event is emitted, the store is not touched, the labels, messages,
    counts and notices of the event are not processed, the cursor stays,
    and the error returned has the cause of the UpdateUser error, so it
    is fatal exactly when that one is. *)
Theorem updateUser_failure_stops_event env s event err :
  on_GetEvent env (length (calls s)) (currentEventID s) = inl event ->
  (Z.land (Refresh event) EventRefreshMail =? 0) = true ->
  negb (Nat.eqb (length (Addresses event)) 0) = true ->
  on_UpdateUser env (S (length (calls (fetched s)))) = Some err ->
  processNextEventBody env s
  = (Ok (false,
         Some (Wrap (Wrap (Wrap err "failed to update user")
                          "failed to process address events")
                    "failed to process event")),
     setCalls (CallLogout :: CallUpdateUser :: CallAddresses :: calls (fetched s))
              (fetched s))
  /\ isFatal (Wrap (Wrap (Wrap err "failed to update user")
                         "failed to process address events")
                   "failed to process event") = isFatal err.
Proof.
  intros Hget Href Hlen Hup. split; [|reflexivity].
  rewrite (processNextEventBody_fetch _ _ _ Hget).
  assert (Hev : processEvent env event (fetched s)
                = (Ok (Some (Wrap (Wrap err "failed to update user")
                                  "failed to process address events")),
                   setCalls (CallLogout :: CallUpdateUser :: CallAddresses
                               :: calls (fetched s)) (fetched s))).
  { unfold processEvent. rewrite Href.
    destruct (Addresses event) as [|a rest]; [discriminate|].
    unfold ifNonEmpty, processAddresses, apiAddresses, userLogout.
    change (negb true) with false. cbv iota.
    mstep.
    change (length (calls (setCalls (CallAddresses :: calls (fetched s)) (fetched s))))
      with (S (length (calls (fetched s)))).
    rewrite Hup. mstep. reflexivity. }
  now rewrite (bind_eq _ _ _ _ _ Hev).
Qed.

Lemma updateUser_failure_stops_event_witness :
  on_GetEvent envUnauthorizedUpdate (length (calls (loopAt "e5")))
    (currentEventID (loopAt "e5")) = inl addressCreated
  /\ (Z.land (Refresh addressCreated) EventRefreshMail =? 0) = true
  /\ negb (Nat.eqb (length (Addresses addressCreated)) 0) = true
  /\ on_UpdateUser envUnauthorizedUpdate (S (length (calls (fetched (loopAt "e5")))))
     = Some (ErrUnauthorized "401")
  /\ processNextEventBody envUnauthorizedUpdate (loopAt "e5")
     = (Ok (false,
            Some (Wrap (Wrap (Wrap (ErrUnauthorized "401") "failed to update user")
                             "failed to process address events")
                       "failed to process event")),
        setCalls [CallLogout; CallUpdateUser; CallAddresses; CallGetEvent "e5"]
                 (loopAt "e5"))
  /\ isFatal (Wrap (Wrap (Wrap (ErrUnauthorized "401") "failed to update user")
                         "failed to process address events")
                   "failed to process event") = isFatal (ErrUnauthorized "401").
Proof.
  split; [reflexivity|]. split; [reflexivity|]. split; [reflexivity|].
  split; [reflexivity|].
  exact (updateUser_failure_stops_event envUnauthorizedUpdate (loopAt "e5") addressCreated
           (ErrUnauthorized "401") eq_refl eq_refl eq_refl eq_refl).
Defined.

(** ** Address deltas and nil addresses *)

Lemma processAddressEvent_result env oldList addressEvent s :
  fst (processAddressEvent env oldList addressEvent s)
  = if addressEventOk oldList addressEvent then Ok tt else Panicked.
Proof.
  unfold processAddressEvent, addressEventOk, emit, whenM.
  destruct (ea_Action addressEvent); try reflexivity.
  - destruct (ByID oldList (ea_ID addressEvent)); reflexivity.
  - destruct (ea_Address addressEvent); reflexivity.
  - destruct (ByID oldList (ea_ID addressEvent)); [|reflexivity].
    destruct (ea_Address addressEvent) as [addr|]; [|reflexivity].
    destruct (negb _); reflexivity.
Qed.

(** X13: the loop over the address deltas returns exactly when every
    create delta carries an address and every update delta of an address
    present in the old list carries one; otherwise it panics on a nil
    dereference.  Delete deltas, updates of unknown addresses and
    unknown actions never dereference the address. *)
Theorem processAddressEvents_returns_iff env oldList addressEvents s :
  fst (processAddressEvents env oldList addressEvents s) = Ok tt
  <-> forallb (addressEventOk oldList) addressEvents = true.
Proof.
  revert s. induction addressEvents as [|a rest IH]; intros s; simpl.
  - split; reflexivity.
  - pose proof (processAddressEvent_result env oldList a s) as H.
    unfold bind. destruct (processAddressEvent env oldList a s) as [[[]|] s1];
      simpl in H; destruct (addressEventOk oldList a); try discriminate; simpl.
    + apply IH.
    + split; discriminate.
Qed.

Example update_without_address_panics :
  fst (processAddressEvents envMore [address1] [updateWithoutAddress] (loopAt "e1"))
    = Panicked
  /\ fst (processAddressEvents envMore [] [updateWithoutAddress] (loopAt "e1")) = Ok tt.
Proof. split; reflexivity. Qed.

(** ** Label deltas in order *)

(** X14: processLabels changes nothing but the log of calls.  The calls
    it makes are the store calls of the label deltas, in the order of
    the deltas, up to and including the first one the store answers
    with an error: it makes all of them and returns nil exactly when the
    store answers none with an error, and otherwise every call before
    the last one made was answered without error and the result is the
    error answered to the last one, wrapped in the message of its
    branch.  The list holds label deltas; a nil element of the Go
    slice, which the loop dereferences, is not covered. *)
Theorem processLabels_calls_in_order env labels : forall s,
  exists r k,
    processLabels env labels s
    = (Ok r, setCalls (rev (firstn k (flat_map labelCall labels)) ++ calls s) s)
    /\ match r with
       | None =>
           k = length (flat_map labelCall labels)
           /\ forallb isNil
                (labelAnswers env (length (calls s)) (flat_map labelCall labels)) = true
       | Some e =>
           exists j c cause,
             k = S j
             /\ forallb isNil
                  (firstn j (labelAnswers env (length (calls s))
                               (flat_map labelCall labels))) = true
             /\ nth_error (flat_map labelCall labels) j = Some c
             /\ nth_error (labelAnswers env (length (calls s))
                             (flat_map labelCall labels)) j = Some (Some cause)
             /\ e = Wrap cause (labelMessage c)
       end.
Proof.
  induction labels as [|a rest IH]; intros s.
  - exists None, 0%nat. destruct s. repeat split.
  - assert (Hstep : forall c (oracle : nat -> option error) msg,
               labelCall a = [c] ->
               (forall t, labelAnswer env t c = oracle t) ->
               labelMessage c = msg ->
               exists r k,
                 (check (t <- call c ;; ret (oracle t)) wrapping msg ;;
                  processLabels env rest) s
                 = (Ok r, setCalls (rev (firstn k (labelCall a ++ flat_map labelCall rest))
                                      ++ calls s) s)
                 /\ match r with
                    | None =>
                        k = length (labelCall a ++ flat_map labelCall rest)
                        /\ forallb isNil
                             (labelAnswers env (length (calls s))
                                (labelCall a ++ flat_map labelCall rest)) = true
                    | Some e =>
                        exists j c' cause,
                          k = S j
                          /\ forallb isNil
                               (firstn j (labelAnswers env (length (calls s))
                                            (labelCall a ++ flat_map labelCall rest))) = true
                          /\ nth_error (labelCall a ++ flat_map labelCall rest) j = Some c'
                          /\ nth_error (labelAnswers env (length (calls s))
                                          (labelCall a ++ flat_map labelCall rest)) j
                             = Some (Some cause)
                          /\ e = Wrap cause (labelMessage c')
                    end).
    { intros c oracle msg Hc Ho Hm. rewrite Hc. mstep.
      change ([c] ++ flat_map labelCall rest) with (c :: flat_map labelCall rest).
      cbn [labelAnswers]. rewrite Ho.
      destruct (oracle (length (calls s))) as [e|] eqn:He.
      - exists (Some (Wrap e msg)), 1%nat. split; [reflexivity|].
        exists 0%nat, c, e. rewrite Hm. repeat split.
      - destruct (IH (setCalls (c :: calls s) s)) as [r [k [E Hr]]].
        change (length (calls (setCalls (c :: calls s) s))) with (S (length (calls s))) in Hr.
        exists r, (S k). rewrite E. split.
        + simpl. now rewrite <- app_assoc.
        + destruct r as [e|].
          * destruct Hr as [j [c' [cause [Hk [Hf [Hn [Ha Hw]]]]]]].
            exists (S j), c', cause. rewrite Hk. repeat split; assumption.
          * destruct Hr as [Hk Hf]. rewrite Hk. split; [reflexivity|exact Hf]. }
    simpl. unfold labelCall at 1 3 5 7 9 11. unfold labelCall in Hstep.
    destruct (el_Action a); try (apply Hstep; reflexivity); apply IH.
Qed.

Example processLabels_stops_at_second_call :
  processLabels envSecondLabelCallFails threeLabels (loopAt "e1")
  = (Ok (Some (Wrap (ErrOther "locked") "failed to delete label")),
     setCalls [CallDeleteMailboxEvent "L2";
               CallCreateOrUpdateMailboxEvent
                 (Some {| label_ID := "L1"; label_Name := "work"; label_Color := "#fff" |})]
              (loopAt "e1")).
Proof. reflexivity. Qed.

(** ** The result variable of processMessages *)

Lemma isNoSuchAPIID_not_wrapped e : isNoSuchAPIID e = true -> isWrapped (Some e) = false.
Proof. destruct e; now try discriminate. Qed.

Lemma processMessagesFrom_app env l1 l2 : forall err s,
  isWrapped err = false ->
  processMessagesFrom env err (l1 ++ l2) s
  = (r <- processMessagesFrom env err l1 ;;
     if isWrapped r then ret r else processMessagesFrom env r l2) s.
Proof.
  induction l1 as [|a rest IH]; intros err s Herr.
  - simpl. mstep. now rewrite Herr.
  - simpl.
    unfold createOrUpdateMessageEvent, getMessageFromDB, fetchMessage, deleteMessageEvent.
    destruct (em_Action a).
    + mstep. destruct (on_deleteMessageEvent env _); mstep; [reflexivity|now apply IH].
    + destruct (em_Created a) as [c|]; [|now apply IH].
      mstep. destruct (on_createOrUpdateMessageEvent env _); mstep;
        [reflexivity|now apply IH].
    + destruct (em_Updated a) as [u|]; [|now apply IH].
      mstep. destruct (on_getMessageFromDB env _ _) as [m|e].
      * mstep. destruct (on_createOrUpdateMessageEvent env _); mstep;
          [reflexivity|now apply IH].
      * destruct (isNoSuchAPIID e); [|mstep; reflexivity].
        mstep. destruct (on_fetchMessage env _ _) as [m|e'].
        -- mstep. destruct (on_createOrUpdateMessageEvent env _); mstep;
             [reflexivity|now apply IH].
        -- destruct (isNoSuchAPIID e') eqn:He'; [|mstep; reflexivity].
           apply IH. now apply isNoSuchAPIID_not_wrapped.
    + destruct (em_Updated a) as [u|]; [|now apply IH].
      mstep. destruct (on_getMessageFromDB env _ _) as [m|e].
      * mstep. destruct (on_createOrUpdateMessageEvent env _); mstep;
          [reflexivity|now apply IH].
      * destruct (isNoSuchAPIID e); [|mstep; reflexivity].
        mstep. destruct (on_fetchMessage env _ _) as [m|e'].
        -- mstep. destruct (on_createOrUpdateMessageEvent env _); mstep;
             [reflexivity|now apply IH].
        -- destruct (isNoSuchAPIID e') eqn:He'; [|mstep; reflexivity].
           apply IH. now apply isNoSuchAPIID_not_wrapped.
    + now apply IH.
Qed.

(** X15: processMessages on deltas [l1 ++ l2] handles [l1], and then,
    if that gave a wrapped store or fetch failure, returns it without
    looking at [l2]; otherwise it goes on with [l2], carrying as its
    result so far what [l1] left: nil, or the ErrNoSuchAPIID of a
    skipped update, which is returned in the end unless a later delta
    assigns the result again. *)
Theorem processMessages_app env l1 l2 s :
  processMessages env (l1 ++ l2) s
  = (r <- processMessages env l1 ;;
     if isWrapped r then ret r else processMessagesFrom env r l2) s.
Proof. unfold processMessages. now apply processMessagesFrom_app. Qed.

(** A skipped update followed by a delete: the delete assigns the
    result again and the event succeeds; followed by a create without
    message, the result of the skip is returned. *)
Example stale_update_then_delete :
  fst (processMessages envStale [staleUpdate; deleted3] (loopAt "e2")) = Ok None
  /\ fst (processMessages envStale [staleUpdate; nilCreate] (loopAt "e2"))
     = Ok (Some ErrNoSuchAPIID).
Proof. split; reflexivity. Qed.

(** ** Notices on the IMAP channel *)

Lemma imapNoticeAll_delivers env notice addresses : forall s received,
  imapUpdates s = Some received ->
  (forall t, on_imapSendTimesOut env t = false) ->
  exists s', imapNoticeAll env addresses notice s = (Ok tt, s')
             /\ imapUpdates s' = Some (received ++ map (alert notice) addresses).
Proof.
  induction addresses as [|a rest IH]; intros s received Hch Hno; simpl.
  - exists s. now rewrite app_nil_r.
  - unfold imapNotice, imapSendUpdate at 1. unfold bind at 1. rewrite Hch, Hno.
    destruct (IH (setImapUpdates (Some (received ++ [alert notice a]))
                    (setCalls (CallImapSend (alert notice a) :: calls s) s))
                 (received ++ [alert notice a]) eq_refl Hno) as [s' [E Hs']].
    exists s'. fold (alert notice a). rewrite E. split; [reflexivity|].
    now rewrite Hs', <- app_assoc.
Qed.

(** X16: with an IMAP channel registered, no send timing out and the
    store addresses of the user staying the same, processNotices
    delivers one ALERT status update per notice and address, grouped by
    notice in the order of the notices and, within a notice, in the
    order of the addresses, after what the channel had received. *)
Theorem processNotices_delivers_alerts env notices addresses : forall s received,
  imapUpdates s = Some received ->
  (forall t, on_imapSendTimesOut env t = false) ->
  (forall t, on_GetStoreAddresses env t = addresses) ->
  fst (processNotices env notices s) = Ok tt
  /\ imapUpdates (snd (processNotices env notices s))
     = Some (received ++ flat_map (fun notice => map (alert notice) addresses) notices).
Proof.
  induction notices as [|n rest IH]; intros s received Hch Hno Haddr; simpl.
  - now rewrite app_nil_r.
  - mstep. rewrite Haddr.
    destruct (imapNoticeAll_delivers env n addresses
                (setCalls (CallGetStoreAddresses :: calls s) s) received Hch Hno)
      as [s' [E Hs']].
    rewrite (bind_eq _ _ _ _ _ E).
    destruct (IH s' _ Hs' Hno Haddr) as [H1 H2].
    split; [exact H1|]. now rewrite H2, <- app_assoc.
Qed.

Lemma processNotices_delivers_alerts_witness :
  imapUpdates (listening "e1") = Some []
  /\ (forall t, on_imapSendTimesOut envMore t = false)
  /\ (forall t, on_GetStoreAddresses envMore t = ["user@pm.me"])
  /\ fst (processNotices envMore ["n1"; "n2"] (listening "e1")) = Ok tt
  /\ imapUpdates (snd (processNotices envMore ["n1"; "n2"] (listening "e1")))
     = Some [alert "n1" "user@pm.me"; alert "n2" "user@pm.me"].
Proof.
  split; [reflexivity|]. split; [reflexivity|]. split; [reflexivity|].
  exact (processNotices_delivers_alerts envMore ["n1"; "n2"] ["user@pm.me"]
           (listening "e1") [] eq_refl (fun _ => eq_refl) (fun _ => eq_refl)).
Defined.

Lemma imapNoticeAll_nil_channel env notice addresses s :
  imapUpdates s = None -> imapNoticeAll env addresses notice s = (Ok tt, s).
Proof.
  intros H. induction addresses as [|a rest IH]; simpl; [reflexivity|].
  unfold imapNotice, imapSendUpdate at 1. unfold bind at 1. now rewrite H.
Qed.

(** X17: with no IMAP channel registered, processNotices sends nothing:
    it asks for the store addresses once per notice and leaves
    everything else as it is. *)
Theorem processNotices_without_channel env notices : forall s,
  imapUpdates s = None ->
  processNotices env notices s
  = (Ok tt, setCalls (repeat CallGetStoreAddresses (length notices) ++ calls s) s).
Proof.
  induction notices as [|n rest IH]; intros s H; simpl.
  - destruct s; reflexivity.
  - mstep.
    rewrite (bind_eq _ _ _ _ _
               (imapNoticeAll_nil_channel env n _
                  (setCalls (CallGetStoreAddresses :: calls s) s) H)).
    rewrite IH; [|exact H]. f_equal. unfold setCalls. simpl. f_equal.
    clear. induction (length rest) as [|k IHk]; simpl; [reflexivity|]. now rewrite IHk.
Qed.

Lemma processNotices_without_channel_witness :
  imapUpdates (loopAt "e1") = None
  /\ processNotices envMore ["n1"; "n2"] (loopAt "e1")
     = (Ok tt, setCalls [CallGetStoreAddresses; CallGetStoreAddresses] (loopAt "e1")).
Proof.
  split; [reflexivity|].
  exact (processNotices_without_channel envMore ["n1"; "n2"] (loopAt "e1") eq_refl).
Defined.

(** ** One emission per error *)

(** X18: for an error, the deferred function emits at most one bridge
    event: InternetOff when the cause is NotReachable; otherwise
    RestartBridge when the descriptor probe is positive, whatever the
    cause; otherwise UpgradeApplication when the cause is
    UpgradeApplication; otherwise nothing.  So a positive probe hides an
    UpgradeApplication error, and no error yields two emissions. *)
Theorem classify_emits_at_most_once env err s :
  exists l,
    calls (snd (classify env (Some err) s)) = l ++ calls s
    /\ List.filter isEmit l =
       if isAPINotReachable (Cause (Some err)) then [CallEmit InternetOffEvent ""]
       else if on_isFdCloseToULimit env (length (calls s))
            then [CallEmit RestartBridgeEvent ""]
       else if isUpgradeApplication (Cause (Some err))
            then [CallEmit UpgradeApplicationEvent ""]
       else [].
Proof.
  rewrite classify_result. cbv zeta.
  destruct (isAPINotReachable (Cause (Some err)));
    [now exists [CallEmit InternetOffEvent ""]|].
  destruct (on_isFdCloseToULimit env (length (calls s)));
    [now exists [CallEmit RestartBridgeEvent ""; CallIsFdCloseToULimit]|].
  destruct (isUpgradeApplication (Cause (Some err)));
    [now exists [CallEmit UpgradeApplicationEvent ""; CallIsFdCloseToULimit]|].
  destruct (isFatal err); now exists [CallIsFdCloseToULimit].
Qed.

(** ** The IMAP update channel *)

Lemma perform_send GetFlags timesOut request store :
  ImapUpdates.perform GetFlags timesOut request store
  = ImapUpdates.imapSendUpdate timesOut (ImapUpdates.updateOf GetFlags request) store.
Proof. destruct request; reflexivity. Qed.

Lemma performAll_channel GetFlags requests : forall received,
  ImapUpdates.performAll GetFlags requests {| ImapUpdates.imapUpdates := Some received |}
  = {| ImapUpdates.imapUpdates :=
         Some (received ++ ImapUpdates.delivered GetFlags requests) |}.
Proof.
  induction requests as [|[request timesOut] rest IH]; intros received; simpl.
  - unfold ImapUpdates.delivered. simpl. now rewrite app_nil_r.
  - rewrite perform_send. unfold ImapUpdates.imapSendUpdate. simpl.
    destruct timesOut; rewrite IH; unfold ImapUpdates.delivered; simpl; [reflexivity|].
    now rewrite <- app_assoc.
Qed.

Lemma performAll_nil GetFlags requests :
  ImapUpdates.performAll GetFlags requests {| ImapUpdates.imapUpdates := None |}
  = {| ImapUpdates.imapUpdates := None |}.
Proof.
  induction requests as [|[request timesOut] rest IH]; simpl; [reflexivity|].
  rewrite perform_send. exact IH.
Qed.

(** X19: after SetIMAPUpdateChannel, whatever the store had before, any
    sequence of imapNotice, imapUpdateMessage, imapDeleteMessage and
    imapMailboxStatus calls leaves a nil channel nil and sends nothing,
    and gives a registered channel exactly the updates of the calls
    whose send did not time out, in the order of the calls, after what
    it had received: a timed-out update is dropped, none is sent twice,
    and none overtakes another. *)
Theorem imap_updates_delivered_in_order GetFlags requests updates store :
  ImapUpdates.performAll GetFlags requests (ImapUpdates.SetIMAPUpdateChannel updates store)
  = {| ImapUpdates.imapUpdates :=
         match updates with
         | None => None
         | Some received => Some (received ++ ImapUpdates.delivered GetFlags requests)
         end |}.
Proof.
  unfold ImapUpdates.SetIMAPUpdateChannel.
  destruct updates as [received|]; [apply performAll_channel|apply performAll_nil].
Qed.

(** X20: imapMailboxStatus reports the counts it is given as they are
    when they are below 2^32; the conversion to uint32 keeps only their
    remainder modulo 2^32 otherwise. *)
Theorem mailbox_status_counts_below_2_32 timesOut address mailboxName total unread received :
  0 <= total < 2 ^ 32 ->
  0 <= unread < 2 ^ 32 ->
  ImapUpdates.imapMailboxStatus timesOut address mailboxName total unread
    {| ImapUpdates.imapUpdates := Some received |}
  = {| ImapUpdates.imapUpdates :=
         Some (if timesOut then received
               else received ++ [ImapUpdates.MailboxCounts address mailboxName total unread]) |}.
Proof.
  intros Ht Hu.
  unfold ImapUpdates.imapMailboxStatus, ImapUpdates.imapSendUpdate, ImapUpdates.uint32.
  simpl. rewrite (Z.mod_small total), (Z.mod_small unread) by assumption.
  now destruct timesOut.
Qed.

Lemma mailbox_status_counts_below_2_32_witness :
  0 <= 12 < 2 ^ 32
  /\ 0 <= 3 < 2 ^ 32
  /\ ImapUpdates.imapMailboxStatus false "user@pm.me" "INBOX" 12 3
       {| ImapUpdates.imapUpdates := Some [] |}
     = {| ImapUpdates.imapUpdates :=
            Some [ImapUpdates.MailboxCounts "user@pm.me" "INBOX" 12 3] |}.
Proof.
  assert (H1 : 0 <= 12 < 2 ^ 32) by (split; [discriminate|reflexivity]).
  assert (H2 : 0 <= 3 < 2 ^ 32) by (split; [discriminate|reflexivity]).
  split; [exact H1|]. split; [exact H2|].
  exact (mailbox_status_counts_below_2_32 false "user@pm.me" "INBOX" 12 3 [] H1 H2).
Defined.

(** A mailbox of 2^32 messages is reported as empty. *)
Example mailbox_status_wraps :
  ImapUpdates.imapMailboxStatus false "user@pm.me" "INBOX" (2 ^ 32) (2 ^ 32 + 5)
    {| ImapUpdates.imapUpdates := Some [] |}
  = {| ImapUpdates.imapUpdates :=
         Some [ImapUpdates.MailboxCounts "user@pm.me" "INBOX" 0 5] |}.
Proof. reflexivity. Qed.

(** The channel of the event loop is this channel restricted to status
    updates: imapNotice of the loop sends what imapNotice here sends. *)
Lemma loop_imapNotice_agrees env address notice s :
  {| ImapUpdates.imapUpdates :=
       option_map (map ImapUpdates.Status) (imapUpdates (snd (imapNotice env address notice s))) |}
  = ImapUpdates.imapNotice (on_imapSendTimesOut env (length (calls s))) address notice
      {| ImapUpdates.imapUpdates := option_map (map ImapUpdates.Status) (imapUpdates s) |}.
Proof.
  unfold imapNotice, imapSendUpdate, ImapUpdates.imapNotice, ImapUpdates.imapSendUpdate.
  simpl. destruct (imapUpdates s) as [received|] eqn:E; simpl; [|now rewrite E].
  destruct (on_imapSendTimesOut env _); simpl; [now rewrite E|].
  now rewrite map_app.
Qed.

(** ** Restarting on the cache of a run *)

Section ReliableCache.

Variable env : Env.
Hypothesis writes : forall t, on_setEventID env t = None.

Lemma agree_same s s' : agree env s -> sameCursor s s' -> agree env s'.
Proof. unfold agree, persisted. intros H [A B]. now rewrite A, B. Qed.

Lemma agree_write id s :
  agree env (snd (cacheSetEventID env (userID env) id (setCurrentEventID id s))).
Proof.
  unfold cacheSetEventID. mstep. rewrite writes. mstep. unfold agree. simpl.
  symmetry. apply (persisted_insert env id (setCalls _ (setCurrentEventID id s))).
Qed.

Lemma agree_setFirstEventID s : agree env s -> agree env (snd (setFirstEventID env s)).
Proof.
  intros H. unfold setFirstEventID, apiGetEvent. mstep.
  destruct (on_GetEvent env _ _) as [ev|e]; mstep.
  - apply (agree_write (EventID ev) (setCalls (CallGetEvent "" :: calls s) s)).
  - eapply agree_same; [exact H|]. split; reflexivity.
Qed.

Lemma agree_startPrelude s : agree env s -> agree env (snd (startPrelude env s)).
Proof.
  intros H. unfold startPrelude, isBeforeFirstStart. mstep.
  assert (Hsync : forall s0, sameCursor s0
            (snd ((t <- call CallIsSyncFinished ;;
                   whenM (negb (on_isSyncFinished env t)) triggerSync) s0))).
  { intros s0. mstep. unfold whenM, triggerSync. destruct (negb _); split; reflexivity. }
  destruct (String.eqb (currentEventID s) ""); simpl whenM.
  - mstep. rewrite snd_bind. pose proof (agree_setFirstEventID s H) as H1.
    destruct (setFirstEventID env s) as [[r|] s1]; simpl snd in *; [|exact H1].
    mstep. eapply agree_same; [exact H1|apply Hsync].
  - eapply agree_same; [exact H|apply Hsync].
Qed.

Lemma agree_processNextEvent s : agree env s -> agree env (snd (processNextEvent env s)).
Proof.
  intros H.
  assert (Hb : agree env (snd (processNextEventBody env s))).
  { destruct (on_GetEvent env (length (calls s)) (currentEventID s)) as [ev|e] eqn:Hget.
    - rewrite (processNextEventBody_fetch _ _ _ Hget), snd_bind.
      pose proof (proj1 (processEvent_frame env ev) (fetched s)) as F.
      pose proof (agree_same _ _ (agree_same _ _ H (fetched_frame s)) F) as H3.
      destruct (processEvent env ev (fetched s)) as [[[e|]|] s3]; simpl snd in *;
        try exact H3.
      mstep. destruct (negb _); [|exact H3].
      mstep. rewrite snd_bind.
      pose proof (agree_write (EventID ev) s3) as H4.
      destruct (cacheSetEventID env (userID env) (EventID ev)
                  (setCurrentEventID (EventID ev) s3)) as [[[e|]|] s4]; exact H4.
    - rewrite (processNextEventBody_offline _ _ _ Hget).
      eapply agree_same; [exact H|]. split; reflexivity. }
  unfold processNextEvent. rewrite snd_bind.
  destruct (processNextEventBody env s) as [[r|] s1]; simpl snd in *; [|exact Hb].
  rewrite snd_bind.
  pose proof (agree_same _ _ Hb (proj1 (classify_frame env (snd r)) s1)) as Hc.
  destruct (classify env (snd r) s1) as [[e|] s2]; exact Hc.
Qed.

Lemma agree_iteration trigger s : agree env s -> agree env (snd (iteration env trigger s)).
Proof.
  intros H.
  assert (Hgo : agree env (snd ((startPrelude env ;;; r <- processNextEvent env ;;
                                 startFinish env trigger r) s))).
  { rewrite snd_bind. pose proof (agree_startPrelude s H) as H1.
    destruct (startPrelude env s) as [[[]|] s1]; simpl snd in *; [|exact H1].
    rewrite snd_bind. pose proof (agree_processNextEvent s1 H1) as H2.
    destruct (processNextEvent env s1) as [[r|] s2]; simpl snd in *; [|exact H2].
    exact (agree_same _ _ H2 (proj1 (startFinish_frame env trigger r) s2)). }
  destruct trigger; [|exact Hgo|exact Hgo].
  eapply agree_same; [exact H|]. split; reflexivity.
Qed.

Lemma agree_loopFor triggers : forall s,
  agree env s -> agree env (snd (loopFor env triggers s)).
Proof.
  induction triggers as [|t rest IH]; intros s H; simpl; [exact H|].
  rewrite snd_bind. pose proof (agree_iteration t s H) as H1.
  destruct (iteration env t s) as [[[]|] s1]; simpl snd in *; auto.
Qed.

End ReliableCache.

(** X21: when no cache write fails, after every run of start from a new
    event loop the persisted cursor is the in-memory cursor, so a new
    event loop created on the cache the run left starts at the cursor
    the run ended with: nothing is applied twice and nothing is skipped
    over a restart. *)
Theorem restart_resumes_at_cursor env c imap imap' triggers :
  (forall t, on_setEventID env t = None) ->
  currentEventID
    (newEventLoop env (cache (snd (start env triggers (newEventLoop env c imap)))) imap')
  = currentEventID (snd (start env triggers (newEventLoop env c imap))).
Proof.
  intros Hw. symmetry.
  change (agree env (snd (start env triggers (newEventLoop env c imap)))).
  unfold start. simpl isRunning. cbv iota. fold (started (newEventLoop env c imap)).
  assert (H0 : agree env (started (newEventLoop env c imap))) by reflexivity.
  pose proof (agree_loopFor env Hw triggers _ H0) as H.
  destruct (loopFor env triggers (started (newEventLoop env c imap))) as [[[]|] s1];
    exact H.
Qed.

Lemma restart_resumes_at_cursor_witness :
  (forall t, on_setEventID envStream t = None)
  /\ currentEventID
       (newEventLoop envStream
          (cache (snd (start envStream [Tick; Tick] (newEventLoop envStream ∅ None)))) None)
     = "e2".
Proof.
  split; [reflexivity|].
  exact (restart_resumes_at_cursor envStream ∅ None None [Tick; Tick] (fun _ => eq_refl)).
Defined.

(** ** One fetch per poll *)

Lemma noFetch_trans s1 s2 s3 : noFetch s1 s2 -> noFetch s2 s3 -> noFetch s1 s3.
Proof.
  intros [l1 [E1 F1]] [l2 [E2 F2]]. exists (l2 ++ l1).
  rewrite E2, E1, app_assoc, List.filter_app, F1, F2. now split.
Qed.

Lemma appliesOnly_noFetch s s' : appliesOnly s s' -> noFetch s s'.
Proof.
  intros (_ & _ & _ & _ & l & E & F). exists l. split; [exact E|].
  clear E. induction l as [|c l IH]; [reflexivity|]. simpl in *.
  apply andb_true_iff in F. destruct F as [Fc Fl].
  destruct c; try discriminate; simpl; now apply IH.
Qed.

Lemma noFetch_classify env err s : noFetch s (snd (classify env err s)).
Proof.
  destruct err as [e|]; [|now exists []].
  rewrite classify_result. cbv zeta.
  destruct (isAPINotReachable (Cause (Some e)));
    [now exists [CallEmit InternetOffEvent ""]|].
  destruct (on_isFdCloseToULimit env (length (calls s)));
    [now exists [CallEmit RestartBridgeEvent ""; CallIsFdCloseToULimit]|].
  destruct (isUpgradeApplication (Cause (Some e)));
    [now exists [CallEmit UpgradeApplicationEvent ""; CallIsFdCloseToULimit]|].
  destruct (isFatal e); now exists [CallIsFdCloseToULimit].
Qed.

(** X22: processNextEvent asks the remote exactly once, for the event
    after the in-memory cursor it starts with: its first call is that
    GetEvent and none of the calls after it is a GetEvent. *)
Theorem processNextEvent_fetches_once env s :
  exists l,
    calls (snd (processNextEvent env s)) = l ++ CallGetEvent (currentEventID s) :: calls s
    /\ List.filter isGetEvent l = [].
Proof.
  set (s0 := setCalls (CallGetEvent (currentEventID s) :: calls s) s).
  assert (Hb : noFetch s0 (snd (processNextEventBody env s))).
  { destruct (on_GetEvent env (length (calls s)) (currentEventID s)) as [ev|e] eqn:Hget.
    - rewrite (processNextEventBody_fetch _ _ _ Hget), snd_bind.
      assert (Hf : noFetch s0 (fetched s)).
      { unfold fetched. fold s0. destruct (hasInternet s);
          [now exists []|now exists [CallEmit InternetOnEvent ""]]. }
      pose proof (noFetch_trans _ _ _ Hf
                    (appliesOnly_noFetch _ _ (applies_processEvent env ev (fetched s)))) as H3.
      destruct (processEvent env ev (fetched s)) as [[[e|]|] s3]; simpl snd in *;
        try exact H3.
      mstep. destruct (negb _); [|exact H3].
      unfold cacheSetEventID. mstep.
      eapply noFetch_trans; [exact H3|].
      destruct (on_setEventID env _); mstep; simpl;
        now exists [CallSetEventID (userID env) (EventID ev)].
    - rewrite (processNextEventBody_offline _ _ _ Hget). now exists []. }
  assert (H : noFetch s0 (snd (processNextEvent env s))).
  { unfold processNextEvent. rewrite snd_bind.
    destruct (processNextEventBody env s) as [[r|] s1]; simpl snd in *; [|exact Hb].
    rewrite snd_bind.
    pose proof (noFetch_trans _ _ _ Hb (noFetch_classify env (snd r) s1)) as Hc.
    destruct (classify env (snd r) s1) as [[e|] s2]; exact Hc. }
  destruct H as [l [E F]]. exists l. split; [exact E|exact F].
Qed.
